(** * The terminology reconciliation pipeline of [scripts/convert-terminologies.ts]

    A shallow embedding of the converter that turns upstream terminology
    exports (top-level JSON arrays and code-list JSON objects) into BIND
    CodeSystem records, together with the provenance mapping it accumulates.

    Strings are sequences of UTF-16 code units, as in JavaScript; the regular
    expressions of the source are written out as list functions, one per
    [replace] call, in the order of the source. *)

From Stdlib Require Import List NArith ZArith Bool Arith Lia String Ascii.
From Stdlib Require Import Permutation.
From Equations Require Import Equations.
Import ListNotations.

Set Implicit Arguments.
Local Open Scope N_scope.

(* ------------------------------------------------------------------ *)
(** ** JavaScript strings *)
(* ------------------------------------------------------------------ *)

(** A JavaScript string: its UTF-16 code units. *)
Definition jsstring := list N.

(** An ASCII literal as a JavaScript string. *)
Definition str (s : string) : jsstring :=
  map N_of_ascii (list_ascii_of_string s).

Fixpoint streq (a b : jsstring) : bool :=
  match a, b with
  | [], [] => true
  | x :: a', y :: b' => (x =? y) && streq a' b'
  | _, _ => false
  end.

(** [s.startsWith(p)] *)
Fixpoint startsWith (p s : jsstring) : bool :=
  match p, s with
  | [], _ => true
  | x :: p', y :: s' => (x =? y) && startsWith p' s'
  | _ :: _, [] => false
  end.

(** A string in a boolean context: [undefined] and the empty string are
    falsy. *)
Definition truthy (o : option jsstring) : bool :=
  match o with
  | Some (_ :: _) => true
  | _ => false
  end.

(** The string held by an optional field that was found truthy. *)
Definition text (o : option jsstring) : jsstring :=
  match o with Some s => s | None => [] end.

Definition isDigit (c : N) : bool := (48 <=? c) && (c <=? 57).
Definition isUpperAZ (c : N) : bool := (65 <=? c) && (c <=? 90).
Definition isLowerAZ (c : N) : bool := (97 <=? c) && (c <=? 122).
Definition isAscii (c : N) : bool := c <? 128.

(** The class [\s], which is also what [trim] removes: WhiteSpace and
    LineTerminator code points. *)
Definition isWhiteSpace (c : N) : bool :=
  ((9 <=? c) && (c <=? 13)) || (c =? 32) || (c =? 160) || (c =? 5760)
  || ((8192 <=? c) && (c <=? 8202)) || (c =? 8232) || (c =? 8233)
  || (c =? 8239) || (c =? 8287) || (c =? 12288) || (c =? 65279).

(** The empty string. *)
Definition EMPTY : jsstring := [].

Definition HYPHEN : N := 45.
Definition SPACE : N := 32.

Fixpoint dropWhile (p : N -> bool) (s : jsstring) : jsstring :=
  match s with
  | [] => []
  | c :: r => if p c then dropWhile p r else s
  end.

(** [s.trim()] *)
Definition trim (s : jsstring) : jsstring :=
  rev (dropWhile isWhiteSpace (rev (dropWhile isWhiteSpace s))).

(** [s.replace(/lit/g, rep)] for a non-empty literal [lit]: matches are taken
    left to right and do not overlap; [skip] counts the code units of the
    current match still to be consumed. *)
Fixpoint replaceAllFrom (lit rep : jsstring) (skip : nat) (s : jsstring)
  : jsstring :=
  match s with
  | [] => []
  | c :: r =>
      match skip with
      | S k => replaceAllFrom lit rep k r
      | O =>
          if startsWith lit s
          then rep ++ replaceAllFrom lit rep (List.length lit - 1) r
          else c :: replaceAllFrom lit rep 0 r
      end
  end.

Definition replaceAll (lit rep s : jsstring) : jsstring :=
  replaceAllFrom lit rep 0 s.

(** [s.replace(/C+/g, rep)] for a character class [C]: every maximal run of
    class members becomes one [rep]. *)
Fixpoint replaceRunsFrom (cls : N -> bool) (rep : jsstring) (inRun : bool)
  (s : jsstring) : jsstring :=
  match s with
  | [] => []
  | c :: r =>
      if cls c
      then (if inRun then [] else rep) ++ replaceRunsFrom cls rep true r
      else c :: replaceRunsFrom cls rep false r
  end.

Definition replaceRuns (cls : N -> bool) (rep s : jsstring) : jsstring :=
  replaceRunsFrom cls rep false s.

Definition asciiLower (c : N) : N := if isUpperAZ c then c + 32 else c.
Definition asciiUpper (c : N) : N := if isLowerAZ c then c - 32 else c.

(** A pattern character of a [/.../i] regular expression (no [u] flag)
    against a code unit.  The patterns of this program only hold the
    letters A-Z and U+00C9; for each of these the code units that
    canonicalize to it are the letter itself and its lower-case form, 32
    above it. *)
Definition ciMatch (p d : N) : bool := (d =? p) || (d =? p + 32).

Fixpoint startsWithCI (p s : jsstring) : bool :=
  match p, s with
  | [], _ => true
  | x :: p', y :: s' => ciMatch x y && startsWithCI p' s'
  | _ :: _, [] => false
  end.

(** [s.replace(/^MARKER\s*/i, ...)] with the empty string: the marker at
    the start, in any case, and the white space after it are removed. *)
Definition stripMarker (marker s : jsstring) : jsstring :=
  if startsWithCI marker s
  then dropWhile isWhiteSpace (skipn (List.length marker) s)
  else s.

Definition DEPRECATED : jsstring := str "DEPRECATED".
(** "DÉSUET": D, U+00C9, S, U, E, T. *)
Definition DESUET : jsstring := [68; 201; 83; 85; 69; 84].

(** [s.split("-")] *)
Fixpoint split (sep : N) (s : jsstring) : list jsstring :=
  match s with
  | [] => [[]]
  | c :: r =>
      if c =? sep then [] :: split sep r
      else match split sep r with
           | [] => [[c]]
           | p :: ps => (c :: p) :: ps
           end
  end.

(** [parts.join(sep)] *)
Fixpoint join (sep : jsstring) (parts : list jsstring) : jsstring :=
  match parts with
  | [] => []
  | [p] => p
  | p :: ps => p ++ sep ++ join sep ps
  end.

(* ------------------------------------------------------------------ *)
(** ** Prefix stripping *)
(* ------------------------------------------------------------------ *)

Definition CSIO : jsstring := str "csio:".
Definition ACORD : jsstring := str "acord:".

(** The loop condition of [stripPrefix]. *)
Definition hasKnownPrefix (result : jsstring) : bool :=
  startsWith CSIO result || startsWith ACORD result.

(** The loop body: the match of [/^(?:csio|acord):/] is replaced by the
    empty string. *)
Definition dropKnownPrefix (result : jsstring) : jsstring :=
  if startsWith CSIO result then skipn 5 result
  else if startsWith ACORD result then skipn 6 result
  else result.

(** One turn of the [while] loop: [None] when the condition is false and the
    loop exits, [Some result'] when the body ran. *)
Definition stripPrefix_step (result : jsstring) : option jsstring :=
  if hasKnownPrefix result then Some (dropKnownPrefix result) else None.

(** The loop run for at most [fuel] tests of its condition; [None] when the
    fuel is used up before the loop exits. *)
Fixpoint stripPrefix_fuel (fuel : nat) (result : jsstring) : option jsstring :=
  match fuel with
  | O => None
  | S fuel' =>
      match stripPrefix_step result with
      | None => Some result
      | Some result' => stripPrefix_fuel fuel' result'
      end
  end.

(** A value together with the equation that remembers where it came from. *)
Definition inspect {A : Type} (x : A) : {y : A | x = y} := exist _ x eq_refl.

(** [stripPrefix]: the loop itself.  Each turn that continues removes one
    leading prefix, so the length of [result] is a decreasing measure. *)
Equations? stripPrefix (code : jsstring) : jsstring
  by wf (List.length code) lt :=
  stripPrefix code with inspect (hasKnownPrefix code) => {
    | exist _ true Hcond => stripPrefix (dropKnownPrefix code);
    | exist _ false _ => code }.
Proof.
  clear stripPrefix. revert Hcond. unfold hasKnownPrefix, dropKnownPrefix.
  assert (Hskip : forall (p s : jsstring), startsWith p s = true ->
            List.length s = (List.length p + List.length (skipn (List.length p) s))%nat).
  { induction p as [|x p IH]; intros [|y s] H; simpl in *;
      try reflexivity; try discriminate.
    apply andb_true_iff in H as [_ H]. f_equal. now apply IH. }
  destruct (startsWith CSIO code) eqn:Hc; cbn [orb]; intros Ha.
  - apply Hskip in Hc. change (List.length CSIO) with 5%nat in Hc. lia.
  - rewrite Ha. apply Hskip in Ha. change (List.length ACORD) with 6%nat in Ha.
    lia.
Qed.

(** [isNumericOnly]: [/^\d+$/]. *)
Definition isNumericOnly (code : jsstring) : bool :=
  match code with
  | [] => false
  | _ :: _ => forallb isDigit code
  end.

(** [cleanDisplay] *)
Definition cleanDisplay (display : jsstring) : jsstring :=
  trim (stripMarker DESUET (stripMarker DEPRECATED display)).

(* ------------------------------------------------------------------ *)
(** ** Types *)
(* ------------------------------------------------------------------ *)

(** A single entry in a top-level source file (simple array format). *)
Record TopLevelEntry := mkTopLevelEntry {
  tl_code : jsstring;
  tl_display : option jsstring
}.

(** A single code inside a code-list source file.  The fields [owner],
    [sub_code_list] and [revision] are never read by the converter and are
    left out. *)
Record CodeListCode := mkCodeListCode {
  cl_code : jsstring;
  cl_display : jsstring;
  cl_display_fr : option jsstring;
  cl_deprecated : option bool
}.

(** The shape of a code-list source file; only [code_list_name] and [codes]
    are read. *)
Record CodeListFile := mkCodeListFile {
  code_list_name : jsstring;
  codes : list CodeListCode
}.

Record Designation := mkDesignation {
  language : jsstring;
  value : jsstring
}.

(** A BIND CodeSystem concept with optional French designation. *)
Record BindConcept := mkBindConcept {
  code : jsstring;
  display : jsstring;
  definition : jsstring;
  designation : option (list Designation)
}.

Inductive Status := draft | active | retired | unknown.

(** A BIND CodeSystem resource ([resourceType] is the constant
    "CodeSystem"). *)
Record BindCodeSystem := mkBindCodeSystem {
  cs_id : jsstring;
  cs_url : jsstring;
  cs_name : jsstring;
  cs_title : jsstring;
  cs_status : Status;
  cs_language : option jsstring;
  cs_description : jsstring;
  concept : list BindConcept
}.

(** One entry in the private source-mapping. *)
Record MappingEntry := mkMappingEntry {
  bindCode : jsstring;
  sourceCode : jsstring;
  sourceFile : jsstring;
  codeSystemId : jsstring
}.

(** A boolean field in a boolean context. *)
Definition flag (o : option bool) : bool :=
  match o with Some true => true | _ => false end.

(* ------------------------------------------------------------------ *)
(** ** Insertion-ordered maps and sets *)
(* ------------------------------------------------------------------ *)

(** A JavaScript [Map<string, V>]: its entries in insertion order. *)
Definition JsMap (V : Type) := list (jsstring * V).

Fixpoint map_get {V : Type} (k : jsstring) (m : JsMap V) : option V :=
  match m with
  | [] => None
  | (k', v) :: m' => if streq k' k then Some v else map_get k m'
  end.

(** [m.set(k, v)]: an existing key keeps its place and takes the new value,
    a new key goes to the end. *)
Fixpoint map_set {V : Type} (k : jsstring) (v : V) (m : JsMap V) : JsMap V :=
  match m with
  | [] => [(k, v)]
  | (k', v') :: m' =>
      if streq k' k then (k', v) :: m' else (k', v') :: map_set k v m'
  end.

Definition map_keys {V : Type} (m : JsMap V) : list jsstring := map fst m.

(** [set.has(k)] for a [Set<string>] given by its elements. *)
Definition set_has (k : jsstring) (s : list jsstring) : bool :=
  existsb (streq k) s.

(** [set.add(k)] *)
Definition set_add (k : jsstring) (s : list jsstring) : list jsstring :=
  if set_has k s then s else s ++ [k].

(* ------------------------------------------------------------------ *)
(** ** Helpers that depend on case mapping *)
(* ------------------------------------------------------------------ *)

(** A stand-in for the host's case tables on the sample sources, which are
    ASCII: the tables are never consulted there. *)
Definition noCaseTable (s : jsstring) : jsstring := s.

Section Converter.

(** [String.prototype.toLowerCase] and [toUpperCase] on strings that hold a
    code unit outside ASCII follow the Unicode case tables, which are not
    reproduced here; [localeCompare] is the host's collation. *)
Variable unicodeLower : jsstring -> jsstring.
Variable unicodeUpper : jsstring -> jsstring.
Variable localeCompare : jsstring -> jsstring -> Z.

(** [s.toLowerCase()] *)
Definition toLowerCase (s : jsstring) : jsstring :=
  if forallb isAscii s then map asciiLower s else unicodeLower s.

(** [s.toUpperCase()] *)
Definition toUpperCase (s : jsstring) : jsstring :=
  if forallb isAscii s then map asciiUpper s else unicodeUpper s.

(** [/([a-z0-9])([A-Z])/g] replaced by ["$1-$2"]. *)
Fixpoint hyphenateLowerUpper (s : jsstring) : jsstring :=
  match s with
  | [] => []
  | a :: t =>
      match t with
      | [] => [a]
      | b :: r =>
          if (isLowerAZ a || isDigit a) && isUpperAZ b
          then a :: HYPHEN :: b :: hyphenateLowerUpper r
          else a :: hyphenateLowerUpper t
      end
  end.

(** The rest of a match of [/([A-Z]+)([A-Z][a-z])/] once the first capital
    is consumed: the greedy [[A-Z]+] takes the next capital too when the
    match can still succeed, and otherwise gives it back to the second
    group.  Returns the rest of group 1 and group 2. *)
Fixpoint afterCapital (s : jsstring) : option (jsstring * jsstring) :=
  match s with
  | [] => None
  | c :: r =>
      if isUpperAZ c then
        match afterCapital r with
        | Some (g1, g2) => Some (c :: g1, g2)
        | None =>
            match r with
            | d :: _ => if isLowerAZ d then Some ([], [c; d]) else None
            | [] => None
            end
        end
      else None
  end.

(** [/([A-Z]+)([A-Z][a-z])/g] replaced by ["$1-$2"]. *)
Fixpoint hyphenateAcronymFrom (skip : nat) (s : jsstring) : jsstring :=
  match s with
  | [] => []
  | c :: r =>
      match skip with
      | S k => hyphenateAcronymFrom k r
      | O =>
          if isUpperAZ c then
            match afterCapital r with
            | Some (g1, g2) =>
                (c :: g1) ++ HYPHEN :: g2
                  ++ hyphenateAcronymFrom (List.length g1 + 2) r
            | None => c :: hyphenateAcronymFrom 0 r
            end
          else c :: hyphenateAcronymFrom 0 r
      end
  end.

(** [toKebabCase]: PascalCase / camelCase to kebab-case. *)
Definition toKebabCase (name : jsstring) : jsstring :=
  toLowerCase
    (replaceRuns (fun c => isWhiteSpace c || (c =? 95)) [HYPHEN]
       (hyphenateAcronymFrom 0 (hyphenateLowerUpper name))).

(** [s.charAt(0).toUpperCase() + s.slice(1)] *)
Definition capitalize (s : jsstring) : jsstring :=
  toUpperCase (firstn 1 s) ++ skipn 1 s.

(** [toPascalCase] *)
Definition toPascalCase (kebab : jsstring) : jsstring :=
  join [] (map capitalize (split HYPHEN kebab)).

(** [toTitle] *)
Definition toTitle (kebab : jsstring) : jsstring :=
  join [SPACE] (map capitalize (split HYPHEN kebab)).

(** The matches of [/^-|-$/g] are removed: one leading and one trailing
    hyphen. *)
Definition stripEdgeHyphens (s : jsstring) : jsstring :=
  let s1 := match s with
            | c :: r => if c =? HYPHEN then r else s
            | [] => []
            end in
  match rev s1 with
  | c :: r => if c =? HYPHEN then rev r else s1
  | [] => []
  end.

(** [displayToSlug]: a kebab-case slug from a display string. *)
Definition displayToSlug (display : jsstring) : jsstring :=
  let s1 := replaceAll (str "&amp;") (str "and") display in
  let s2 := replaceAll (str "&") (str "and") s1 in
  let s3 := filter (fun c => negb (c =? 39)) s2 in
  let s4 := map (fun c =>
                   if isLowerAZ c || isUpperAZ c || isDigit c
                      || isWhiteSpace c || (c =? HYPHEN)
                   then c else SPACE) s3 in
  let s5 := replaceRuns isWhiteSpace [HYPHEN] s4 in
  let s6 := toLowerCase s5 in
  let s7 := replaceRuns (fun c => c =? HYPHEN) [HYPHEN] s6 in
  stripEdgeHyphens s7.

(** [generateDefinition]: the display, an em dash (U+2014) between spaces,
    the lower-cased title and " code.". *)
Definition generateDefinition (display codeSystemTitle : jsstring)
  : jsstring :=
  cleanDisplay display ++ [SPACE; 8212; SPACE]
    ++ toLowerCase codeSystemTitle ++ str " code.".

(** [deriveBINDCode]: strip external prefixes; a numeric-only code takes the
    slug of its display text, unless the display is missing or the slug is
    empty. *)
Definition deriveBINDCode (sourceCode : jsstring) (display : option jsstring)
  : jsstring :=
  let stripped := stripPrefix sourceCode in
  if isNumericOnly stripped && truthy display then
    match displayToSlug (cleanDisplay (text display)) with
    | [] => stripped
    | slug => slug
    end
  else stripped.

(* ------------------------------------------------------------------ *)
(** ** Core logic *)
(* ------------------------------------------------------------------ *)

(** The accumulators of the second loop of a builder; [mappings] is the
    module-level list of the source, threaded through. *)
Record Build := mkBuild {
  newConcepts : list BindConcept;
  newBindCodes : list jsstring;
  mappings : list MappingEntry
}.

(** [mappings.push(m)] *)
Definition pushMapping (m : MappingEntry) (b : Build) : Build :=
  mkBuild (newConcepts b) (newBindCodes b) (mappings b ++ [m]).

(** The codes of an existing code system, if any. *)
Definition existingCodesOf (existingCS : option BindCodeSystem)
  : list jsstring :=
  match existingCS with
  | Some cs => fold_left (fun s c => set_add (code c) s) (concept cs) []
  | None => []
  end.

(** The tail of both builders: merge into the existing code system, or make
    a fresh one. *)
Definition mergeOrCreate (id : jsstring) (existingCS : option BindCodeSystem)
  (new : list BindConcept) : BindCodeSystem :=
  match existingCS with
  | Some cs =>
      mkBindCodeSystem (cs_id cs) (cs_url cs) (cs_name cs) (cs_title cs)
        (cs_status cs)
        (Some match cs_language cs with Some l => l | None => str "en" end)
        (cs_description cs)
        (concept cs ++ new)
  | None =>
      mkBindCodeSystem id (str "https://bind.codes/" ++ id) (toPascalCase id)
        (toTitle id) draft (Some (str "en"))
        (toTitle id ++ str " codes for insurance operations.")
        new
  end.

Definition FR_CA : jsstring := str "fr-CA".

(** The French designation made from an optional [display_fr]. *)
Definition frenchDesignation (display_fr : option jsstring)
  : option (list Designation) :=
  if truthy display_fr then
    match cleanDisplay (text display_fr) with
    | [] => None
    | frClean => Some [mkDesignation FR_CA frClean]
    end
  else None.

(** *** [buildFromCodeList] *)

(** The stripped-code lookup of the top-level entries.  [buildFromCodeList]
    builds it and never reads it. *)
Definition topLevelLookup (topLevelEntries : option (list TopLevelEntry))
  : JsMap TopLevelEntry :=
  match topLevelEntries with
  | Some entries =>
      fold_left (fun m entry => map_set (stripPrefix (tl_code entry)) entry m)
        entries []
  | None => []
  end.

Definition codeListDeprecated (c : CodeListCode) : bool :=
  flag (cl_deprecated c) || startsWith DEPRECATED (cl_display c).

(** First loop: de-duplicate the codes of the code-list itself. *)
Definition dedupCodeListStep (seenCodes : JsMap CodeListCode)
  (c : CodeListCode) : JsMap CodeListCode :=
  let bindCode := deriveBINDCode (cl_code c) (Some (cl_display c)) in
  match map_get bindCode seenCodes with
  | None => map_set bindCode c seenCodes
  | Some existing =>
      if flag (cl_deprecated existing)
         && negb (flag (cl_deprecated c))
         && negb (startsWith DEPRECATED (cl_display c))
      then map_set bindCode c seenCodes
      else seenCodes
  end.

Definition dedupCodeList (cs : list CodeListCode) : JsMap CodeListCode :=
  fold_left dedupCodeListStep cs [].

Definition codeListMapping (id : jsstring) (cl : CodeListFile)
  (bindCode : jsstring) (c : CodeListCode) : MappingEntry :=
  mkMappingEntry bindCode (cl_code c)
    (str "code-lists/" ++ toKebabCase (code_list_name cl) ++ str ".json")
    id.

Definition codeListConcept (title bindCode : jsstring) (c : CodeListCode)
  : BindConcept :=
  mkBindConcept bindCode (cleanDisplay (cl_display c))
    (generateDefinition (cl_display c) title)
    (frenchDesignation (cl_display_fr c)).

(** Second loop, one winner. *)
Definition buildCodeListStep (id : jsstring) (cl : CodeListFile)
  (existingCodes : list jsstring) (b : Build)
  (kv : jsstring * CodeListCode) : Build :=
  let (bindCode, c) := kv in
  if codeListDeprecated c then
    pushMapping (codeListMapping id cl bindCode c) b
  else if set_has bindCode existingCodes || set_has bindCode (newBindCodes b)
  then pushMapping (codeListMapping id cl bindCode c) b
  else
    mkBuild (newConcepts b ++ [codeListConcept (toTitle id) bindCode c])
      (set_add bindCode (newBindCodes b))
      (mappings b ++ [codeListMapping id cl bindCode c]).

Definition buildFromCodeList (id : jsstring) (cl : CodeListFile)
  (topLevelEntries : option (list TopLevelEntry))
  (existingCS : option BindCodeSystem) (ms : list MappingEntry)
  : BindCodeSystem * list MappingEntry :=
  let existingCodes := existingCodesOf existingCS in
  let lookup := topLevelLookup topLevelEntries in
  let seenCodes := dedupCodeList (codes cl) in
  let b := fold_left (buildCodeListStep id cl existingCodes) seenCodes
             (mkBuild [] [] ms) in
  (mergeOrCreate id existingCS (newConcepts b), mappings b).

(** *** [buildFromTopLevel] *)

Definition topLevelDeprecated (e : TopLevelEntry) : bool :=
  match tl_display e with
  | Some d => startsWith DEPRECATED d
  | None => false
  end.

Definition dedupTopLevelStep (seenCodes : JsMap TopLevelEntry)
  (entry : TopLevelEntry) : JsMap TopLevelEntry :=
  let bindCode := deriveBINDCode (tl_code entry) (tl_display entry) in
  match map_get bindCode seenCodes with
  | None => map_set bindCode entry seenCodes
  | Some existing =>
      if topLevelDeprecated existing
         && truthy (tl_display entry)
         && negb (startsWith DEPRECATED (text (tl_display entry)))
      then map_set bindCode entry seenCodes
      else seenCodes
  end.

Definition dedupTopLevel (entries : list TopLevelEntry)
  : JsMap TopLevelEntry :=
  fold_left dedupTopLevelStep entries [].

Definition topLevelMapping (id bindCode : jsstring) (e : TopLevelEntry)
  : MappingEntry :=
  mkMappingEntry bindCode (tl_code e) (id ++ str ".json") id.

Definition topLevelConcept (title bindCode : jsstring) (e : TopLevelEntry)
  : BindConcept :=
  mkBindConcept bindCode (cleanDisplay (text (tl_display e)))
    (generateDefinition (text (tl_display e)) title) None.

Definition buildTopLevelStep (id : jsstring) (existingCodes : list jsstring)
  (b : Build) (kv : jsstring * TopLevelEntry) : Build :=
  let (bindCode, entry) := kv in
  if topLevelDeprecated entry then
    pushMapping (topLevelMapping id bindCode entry) b
  else if negb (truthy (tl_display entry)) then b
  else if set_has bindCode existingCodes || set_has bindCode (newBindCodes b)
  then pushMapping (topLevelMapping id bindCode entry) b
  else
    mkBuild (newConcepts b ++ [topLevelConcept (toTitle id) bindCode entry])
      (set_add bindCode (newBindCodes b))
      (mappings b ++ [topLevelMapping id bindCode entry]).

Definition buildFromTopLevel (id : jsstring) (entries : list TopLevelEntry)
  (existingCS : option BindCodeSystem) (ms : list MappingEntry)
  : BindCodeSystem * list MappingEntry :=
  let existingCodes := existingCodesOf existingCS in
  let seenCodes := dedupTopLevel entries in
  let b := fold_left (buildTopLevelStep id existingCodes) seenCodes
             (mkBuild [] [] ms) in
  (mergeOrCreate id existingCS (newConcepts b), mappings b).

(** *** [enrichWithCodeList] *)

Definition hasDesignation (c : BindConcept) : bool :=
  match designation c with
  | Some (_ :: _) => true
  | _ => false
  end.

(** Lookup by the code of the code-list entry, as it stands in the file. *)
Definition codeLookup (cl : CodeListFile) : JsMap CodeListCode :=
  fold_left (fun m c => map_set (cl_code c) c m) (codes cl) [].

(** Lookup by cleaned, lower-cased display text. *)
Definition displayLookup (cl : CodeListFile) : JsMap CodeListCode :=
  fold_left
    (fun m c =>
       if truthy (Some (cl_display c))
       then map_set (toLowerCase (cleanDisplay (cl_display c))) c m
       else m)
    (codes cl) [].

(** The body of the loop over [cs.concept]. *)
Definition enrichConcept (cl : CodeListFile) (c : BindConcept)
  : BindConcept :=
  if hasDesignation c then c
  else
    let clCode :=
      match map_get (code c) (codeLookup cl) with
      | Some x => Some x
      | None => map_get (toLowerCase (display c)) (displayLookup cl)
      end in
    match clCode with
    | Some x =>
        match frenchDesignation (cl_display_fr x) with
        | Some d => mkBindConcept (code c) (display c) (definition c) (Some d)
        | None => c
        end
    | None => c
    end.

(** [enrichWithCodeList] assigns the designation on the concept objects of
    [cs] and returns [cs]; the other fields are untouched.  The objects are
    those of the existing code system too, of which [main] reads only the
    number of concepts afterwards. *)
Definition enrichWithCodeList (cs : BindCodeSystem) (cl : CodeListFile)
  : BindCodeSystem :=
  mkBindCodeSystem (cs_id cs) (cs_url cs) (cs_name cs) (cs_title cs)
    (cs_status cs) (cs_language cs) (cs_description cs)
    (map (enrichConcept cl) (concept cs)).

(* ------------------------------------------------------------------ *)
(** ** Main *)
(* ------------------------------------------------------------------ *)

(** The [codesystems/] directory: the parsed content of [<id>.json], when
    the file exists. *)
Definition Disk := jsstring -> option BindCodeSystem.

(** [writeFile] of [<id>.json]. *)
Definition writeCodeSystem (id : jsstring) (cs : BindCodeSystem) (d : Disk)
  : Disk :=
  fun id' => if streq id id' then Some cs else d id'.

(** The state carried through the loop over the ids. *)
Record RunState := mkRunState {
  disk : Disk;
  run_mappings : list MappingEntry;
  created : nat;
  merged : nat;
  skipped : nat
}.

(** The document written to [.mapping/source-mapping.json]. *)
Record MappingFile := mkMappingFile {
  generatedAt : jsstring;
  description : jsstring;
  totalMappings : nat;
  file_mappings : list MappingEntry
}.

(** What a run leaves behind. *)
Record RunResult := mkRunResult {
  out_disk : Disk;
  out_mapping : MappingFile;
  out_created : nat;
  out_merged : nat;
  out_skipped : nat
}.

(** Code-unit order on strings, the order of the default [sort()]. *)
Fixpoint strltb (a b : jsstring) : bool :=
  match a, b with
  | [], [] => false
  | [], _ :: _ => true
  | _ :: _, [] => false
  | x :: a', y :: b' => (x <? y) || ((x =? y) && strltb a' b')
  end.

Fixpoint insertId (x : jsstring) (l : list jsstring) : list jsstring :=
  match l with
  | [] => [x]
  | y :: l' => if strltb x y then x :: l else y :: insertId x l'
  end.

(** [[...allIds].sort()] *)
Definition sortIds (ids : list jsstring) : list jsstring :=
  fold_left (fun acc x => insertId x acc) ids [].

(** The comparator of the mapping sort. *)
Definition compareMappings (a b : MappingEntry) : Z :=
  let cmp := localeCompare (codeSystemId a) (codeSystemId b) in
  if negb (cmp =? 0)%Z then cmp
  else localeCompare (bindCode a) (bindCode b).

Fixpoint insertMapping (x : MappingEntry) (l : list MappingEntry)
  : list MappingEntry :=
  match l with
  | [] => [x]
  | y :: l' =>
      if (compareMappings x y <? 0)%Z then x :: l
      else y :: insertMapping x l'
  end.

(** [mappings.sort(...)]: a stable sort.  For a comparator that is a total
    preorder, as a collation is, every stable sort returns this list. *)
Definition sortMappings (ms : list MappingEntry) : list MappingEntry :=
  fold_left (fun acc x => insertMapping x acc) ms [].

(** The code system and the mappings for one id, or [None] where the loop
    body reaches its first [continue]. *)
Definition buildForId (topLevelMap : JsMap (list TopLevelEntry))
  (codeListMap : JsMap CodeListFile) (id : jsstring)
  (existingCS : option BindCodeSystem) (ms : list MappingEntry)
  : option (BindCodeSystem * list MappingEntry) :=
  let topLevel := map_get id topLevelMap in
  match map_get id codeListMap with
  | Some codeList =>
      let (cs, ms1) := buildFromCodeList id codeList topLevel existingCS ms in
      match topLevel with
      | Some entries => Some (buildFromTopLevel id entries (Some cs) ms1)
      | None => Some (cs, ms1)
      end
  | None =>
      match topLevel with
      | Some entries =>
          let (cs, ms1) := buildFromTopLevel id entries existingCS ms in
          match find (fun kv => streq (fst kv) id) codeListMap with
          | Some (_, cl) => Some (enrichWithCodeList cs cl, ms1)
          | None => Some (cs, ms1)
          end
      | None => None
      end
  end.

(** The body of the loop over the sorted ids. *)
Definition processId (topLevelMap : JsMap (list TopLevelEntry))
  (codeListMap : JsMap CodeListFile) (st : RunState) (id : jsstring)
  : RunState :=
  let existingCS := disk st id in
  match buildForId topLevelMap codeListMap id existingCS (run_mappings st) with
  | None => st
  | Some (cs, ms) =>
      match concept cs with
      | [] => mkRunState (disk st) ms (created st) (merged st) (S (skipped st))
      | _ :: _ =>
          let d := writeCodeSystem id cs (disk st) in
          match existingCS with
          | Some _ => mkRunState d ms (created st) (S (merged st)) (skipped st)
          | None => mkRunState d ms (S (created st)) (merged st) (skipped st)
          end
      end
  end.

(** The ids to process: the keys of both maps, each once. *)
Definition allIds (topLevelMap : JsMap (list TopLevelEntry))
  (codeListMap : JsMap CodeListFile) : list jsstring :=
  fold_left (fun s id => set_add id s)
    (map_keys topLevelMap ++ map_keys codeListMap) [].

Definition MAPPING_DESCRIPTION : jsstring :=
  str "Maps BIND codes to their original source codes. This file is private and excluded from version control.".

(** [main], from the two source maps as the readers return them, the clock
    reading [now] (the value of [new Date().toISOString()]) and the code
    systems on disk.  The console output and the [.gitignore] entry are left
    out. *)
Definition main (topLevelMap : JsMap (list TopLevelEntry))
  (codeListMap : JsMap CodeListFile) (now : jsstring) (d : Disk)
  : RunResult :=
  let st := fold_left (processId topLevelMap codeListMap)
              (sortIds (allIds topLevelMap codeListMap))
              (mkRunState d [] 0 0 0)%nat in
  let sortedMappings := sortMappings (run_mappings st) in
  mkRunResult (disk st)
    (mkMappingFile now MAPPING_DESCRIPTION (List.length sortedMappings)
       sortedMappings)
    (created st) (merged st) (skipped st).


(* ------------------------------------------------------------------ *)
(** ** Gitignore handling *)
(* ------------------------------------------------------------------ *)

(** [s.includes(pat)] *)
Fixpoint includes (pat s : jsstring) : bool :=
  startsWith pat s
  || match s with
     | [] => false
     | _ :: r => includes pat r
     end.

(** [s.endsWith(pat)] *)
Definition endsWith (pat s : jsstring) : bool :=
  startsWith (rev pat) (rev s).

Definition LF : N := 10.
Definition MAPPING_DIR_ENTRY : jsstring := str ".mapping/".

(** The text appended after the separator: an empty line, the comment and
    the entry, each ended by a line feed. *)
Definition GITIGNORE_BLOCK : jsstring :=
  [LF] ++ str "# Private source mapping (generated)" ++ [LF]
    ++ MAPPING_DIR_ENTRY ++ [LF].

(** [ensureMappingInGitignore], on the content of [.gitignore], [None] when
    the file does not exist; [appendFile] makes the file when it is
    missing. *)
Definition ensureMappingInGitignore (gitignore : option jsstring)
  : option jsstring :=
  let content := text gitignore in
  if negb (includes MAPPING_DIR_ENTRY content) then
    let separator := if endsWith [LF] content then [] else [LF] in
    Some (content ++ separator ++ GITIGNORE_BLOCK)
  else gitignore.

(* ------------------------------------------------------------------ *)
(** ** Vocabulary of the properties *)
(* ------------------------------------------------------------------ *)

(** Both first loops are instances of one scheme: the first entry of a derived
    code is kept, and a later one takes its place when [repl] says so. *)
Definition dedupStepWith {E : Type} (key : E -> jsstring)
  (repl : E -> E -> bool) (seenCodes : JsMap E) (e : E) : JsMap E :=
  match map_get (key e) seenCodes with
  | None => map_set (key e) e seenCodes
  | Some existing =>
      if repl existing e then map_set (key e) e seenCodes else seenCodes
  end.

(** What the scheme leaves for one derived code, from the entries that derive
    to it, in source order. *)
Definition winnerStep {E : Type} (repl : E -> E -> bool) (w : option E)
  (e : E) : option E :=
  match w with
  | None => Some e
  | Some existing => if repl existing e then Some e else Some existing
  end.

(** The first-seen entry, unless it is deprecated and a later entry
    qualifies: then the first such later entry. *)
Definition winnerOf {E : Type} (dep ok : E -> bool) (group : list E)
  : option E :=
  match group with
  | [] => None
  | first :: later =>
      if dep first then
        match find ok later with
        | Some e => Some e
        | None => Some first
        end
      else Some first
  end.

Definition topLevelKey (e : TopLevelEntry) : jsstring :=
  deriveBINDCode (tl_code e) (tl_display e).

Definition codeListKey (c : CodeListCode) : jsstring :=
  deriveBINDCode (cl_code c) (Some (cl_display c)).

(** A later top-level entry that may take the place of a deprecated one. *)
Definition topLevelLive (e : TopLevelEntry) : bool :=
  truthy (tl_display e) && negb (startsWith DEPRECATED (text (tl_display e))).

(** The entries of a source that derive to [b], in source order. *)
Definition groupOf {E : Type} (key : E -> jsstring) (b : jsstring)
  (l : list E) : list E :=
  filter (fun e => streq (key e) b) l.

(** The winners that become new concepts. *)
Definition keepCodeList (existingCodes : list jsstring)
  (kv : jsstring * CodeListCode) : bool :=
  negb (codeListDeprecated (snd kv)) && negb (set_has (fst kv) existingCodes).

Definition keepTopLevel (existingCodes : list jsstring)
  (kv : jsstring * TopLevelEntry) : bool :=
  negb (topLevelDeprecated (snd kv)) && truthy (tl_display (snd kv))
  && negb (set_has (fst kv) existingCodes).

(** The top-level winners that get a mapping entry. *)
Definition recordedTopLevel (kv : jsstring * TopLevelEntry) : bool :=
  truthy (tl_display (snd kv)).

(** The concepts the builders append to the existing code system. *)
Definition newFromCodeList (id : jsstring)
  (existingCS : option BindCodeSystem) (cl : CodeListFile)
  : list BindConcept :=
  map (fun kv => codeListConcept (toTitle id) (fst kv) (snd kv))
    (filter (keepCodeList (existingCodesOf existingCS))
       (dedupCodeList (codes cl))).

Definition newFromTopLevel (id : jsstring)
  (existingCS : option BindCodeSystem) (entries : list TopLevelEntry)
  : list BindConcept :=
  map (fun kv => topLevelConcept (toTitle id) (fst kv) (snd kv))
    (filter (keepTopLevel (existingCodesOf existingCS))
       (dedupTopLevel entries)).

(** The mapping entries a builder pushes. *)
Definition codeListMappings (id : jsstring) (cl : CodeListFile)
  : list MappingEntry :=
  map (fun kv => codeListMapping id cl (fst kv) (snd kv))
    (dedupCodeList (codes cl)).

Definition topLevelMappings (id : jsstring) (entries : list TopLevelEntry)
  : list MappingEntry :=
  map (fun kv => topLevelMapping id (fst kv) (snd kv))
    (filter recordedTopLevel (dedupTopLevel entries)).

(** The mapping entries pushed while one id is processed. *)
Definition idMappings (topLevelMap : JsMap (list TopLevelEntry))
  (codeListMap : JsMap CodeListFile) (id : jsstring) : list MappingEntry :=
  match map_get id codeListMap with
  | Some cl => codeListMappings id cl
  | None => []
  end ++
  match map_get id topLevelMap with
  | Some entries => topLevelMappings id entries
  | None => []
  end.

(** The code system built for one id. *)
Definition builtFor (topLevelMap : JsMap (list TopLevelEntry))
  (codeListMap : JsMap CodeListFile) (id : jsstring)
  (existingCS : option BindCodeSystem) : option BindCodeSystem :=
  option_map fst (buildForId topLevelMap codeListMap id existingCS []).

(** The code system a run writes to [<id>.json]: none when the id is not
    processed or the result has no concept. *)
Definition writtenFor (topLevelMap : JsMap (list TopLevelEntry))
  (codeListMap : JsMap CodeListFile) (id : jsstring)
  (existingCS : option BindCodeSystem) : option BindCodeSystem :=
  match builtFor topLevelMap codeListMap id existingCS with
  | Some cs => match concept cs with [] => None | _ :: _ => Some cs end
  | None => None
  end.

Definition existingConcepts (existingCS : option BindCodeSystem)
  : list BindConcept :=
  match existingCS with Some cs => concept cs | None => [] end.

(** What a run may do to a concept that was already there: nothing, or give
    it one designation when it has none. *)
Definition concept_preserved (c c' : BindConcept) : Prop :=
  code c' = code c /\ display c' = display c /\ definition c' = definition c
  /\ (designation c' = designation c
      \/ (hasDesignation c = false /\ exists d, designation c' = Some [d])).

(** [new] keeps the concepts of [old], in place, and appends to them. *)
Definition appendOnly (old new : list BindConcept) : Prop :=
  exists kept appended,
    new = kept ++ appended /\ Forall2 concept_preserved old kept.

(** The concepts appended while one id is processed. *)
Definition appendedFor (topLevelMap : JsMap (list TopLevelEntry))
  (codeListMap : JsMap CodeListFile) (id : jsstring)
  (existingCS : option BindCodeSystem) : list BindConcept :=
  match map_get id codeListMap, map_get id topLevelMap with
  | Some cl, Some entries =>
      newFromCodeList id existingCS cl
        ++ newFromTopLevel id
             (Some (mergeOrCreate id existingCS
                      (newFromCodeList id existingCS cl)))
             entries
  | Some cl, None => newFromCodeList id existingCS cl
  | None, Some entries => newFromTopLevel id existingCS entries
  | None, None => []
  end.

(** A concept made from a winner of the de-duplication that is not
    deprecated. *)
Definition fromLiveTopLevel (id : jsstring) (entries : list TopLevelEntry)
  (c : BindConcept) : Prop :=
  exists e,
    In e entries
    /\ map_get (topLevelKey e) (dedupTopLevel entries) = Some e
    /\ topLevelDeprecated e = false
    /\ c = topLevelConcept (toTitle id) (topLevelKey e) e.

Definition fromLiveCodeList (id : jsstring) (cl : CodeListFile)
  (c : BindConcept) : Prop :=
  exists x,
    In x (codes cl)
    /\ map_get (codeListKey x) (dedupCodeList (codes cl)) = Some x
    /\ codeListDeprecated x = false
    /\ c = codeListConcept (toTitle id) (codeListKey x) x.

(** The strings of a list in the order in which each first occurs. *)
Definition firstOccurrences (l : list jsstring) : list jsstring :=
  fold_left (fun s k => set_add k s) l [].

(** A directory in which a further run over the same sources would write
    each code system as it reads it. *)
Definition settled (topLevelMap : JsMap (list TopLevelEntry))
  (codeListMap : JsMap CodeListFile) (d : Disk) : Prop :=
  forall id,
    match writtenFor topLevelMap codeListMap id (d id) with
    | Some cs => d id = Some cs
    | None => True
    end.

(** A code unit of a slug: a lower-case letter, a digit or a hyphen. *)
Definition isSlugChar (c : N) : bool :=
  isLowerAZ c || isDigit c || (c =? HYPHEN).

Definition startsWithHyphen (s : jsstring) : bool :=
  match s with
  | c :: _ => c =? HYPHEN
  | [] => false
  end.

(** No two hyphens in a row. *)
Fixpoint noDoubleHyphen (s : jsstring) : bool :=
  match s with
  | [] => true
  | a :: t => negb ((a =? HYPHEN) && startsWithHyphen t) && noDoubleHyphen t
  end.

(** Empty, or runs of lower-case letters and digits joined by single
    hyphens. *)
Definition slugShape (s : jsstring) : bool :=
  forallb isSlugChar s && negb (startsWithHyphen s)
  && negb (startsWithHyphen (rev s)) && noDoubleHyphen s.

(** The same, as a statement about the parts of the string. *)
Definition hyphenFree (s : jsstring) : Prop :=
  forall a b, s <> a ++ HYPHEN :: HYPHEN :: b.

Definition startsWithSpace (s : jsstring) : bool :=
  match s with
  | c :: _ => isWhiteSpace c
  | [] => false
  end.

(** What a run leaves of the fields of a code system other than its
    concepts. *)
Definition sameHeader (cs0 cs1 : BindCodeSystem) : Prop :=
  cs_id cs1 = cs_id cs0 /\ cs_url cs1 = cs_url cs0
  /\ cs_name cs1 = cs_name cs0 /\ cs_title cs1 = cs_title cs0
  /\ cs_status cs1 = cs_status cs0
  /\ cs_description cs1 = cs_description cs0
  /\ match cs_language cs0 with
     | Some l => cs_language cs1 = Some l
     | None => cs_language cs1 = None \/ cs_language cs1 = Some (str "en")
     end.

(* ------------------------------------------------------------------ *)
(** ** Sample sources *)
(* ------------------------------------------------------------------ *)

(** Two top-level entries with the code "1": a live one, then a deprecated
    one. *)
Definition woodFrameEntries : list TopLevelEntry :=
  [ mkTopLevelEntry (str "1") (Some (str "Wood Frame"));
    mkTopLevelEntry (str "1") (Some (str "DEPRECATED Wood Frame")) ].

Definition CONSTRUCTION_TYPE : jsstring := str "construction-type".
Definition LINE_OF_BUSINESS : jsstring := str "line-of-business".
Definition LOSS_CAUSE : jsstring := str "loss-cause".

(** Three top-level entries: two that derive to "AUTO" and one without a
    display. *)
Definition autoEntries : list TopLevelEntry :=
  [ mkTopLevelEntry (str "AUTO") (Some (str "Automobile"));
    mkTopLevelEntry (str "csio:AUTO") (Some (str "Automobile"));
    mkTopLevelEntry (str "X") None ].

(** A deprecated first entry and a later entry of the same code that has no
    display. *)
Definition fireFirst : TopLevelEntry :=
  mkTopLevelEntry (str "FIRE") (Some (str "DEPRECATED Fire")).
Definition fireLater : TopLevelEntry := mkTopLevelEntry (str "FIRE") None.

(** The same upstream code before and after it is deprecated upstream. *)
Definition theftLive : TopLevelEntry :=
  mkTopLevelEntry (str "THEFT") (Some (str "Theft")).
Definition theftDeprecated : TopLevelEntry :=
  mkTopLevelEntry (str "THEFT") (Some (str "DEPRECATED Theft")).

(** A top-level file and a code-list that map to the same id; the only
    code-list entry is deprecated and carries a French display. *)
Definition lobTopLevel : JsMap (list TopLevelEntry) :=
  [ (LINE_OF_BUSINESS,
     [ mkTopLevelEntry (str "csio:AUTO") (Some (str "Automobile")) ]) ].
Definition lobCodeList : CodeListFile :=
  mkCodeListFile (str "LineOfBusiness")
    [ mkCodeListCode (str "AUTO") (str "Automobile")
        (Some (str "Automobile (FR)")) (Some true) ].
Definition lobCodeLists : JsMap CodeListFile :=
  [ (LINE_OF_BUSINESS, lobCodeList) ].

(** A code-list whose first entry of the code "1" is marked in its display
    only. *)
Definition markedFirstCodes : list CodeListCode :=
  [ mkCodeListCode (str "1") (str "DEPRECATED Wood Frame") None None;
    mkCodeListCode (str "1") (str "Wood Frame") None None ].

(** Code-unit order as a three-way comparison, a stand-in for the host's
    [localeCompare] on the sample sources. *)
Definition codeUnitCompare (a b : jsstring) : Z :=
  if strltb a b then (-1)%Z else if strltb b a then 1%Z else 0%Z.

(** An empty [codesystems/] directory. *)
Definition noDisk : Disk := fun _ => None.

(** A code system found on disk before a run, with one concept. *)
Definition lossCauseRecord : BindCodeSystem :=
  mkBindCodeSystem LOSS_CAUSE (str "https://bind.codes/loss-cause")
    (str "LossCause") (str "Loss Cause") active None
    (str "Causes of loss.")
    [ mkBindConcept (str "THEFT") (str "Theft")
        (str "Loss by theft.") None ].
Definition lossCauseDisk : Disk :=
  writeCodeSystem LOSS_CAUSE lossCauseRecord noDisk.

(** Top-level entries for that id: the code already on disk and a new
    one. *)
Definition lossCauseEntries : list TopLevelEntry :=
  [ theftLive; mkTopLevelEntry (str "acord:FIRE") (Some (str "Fire")) ].

(** A code system on disk that has no concept, and a directory that holds
    it. *)
Definition emptyRecord : BindCodeSystem :=
  mkBindCodeSystem LOSS_CAUSE (str "https://bind.codes/loss-cause")
    (str "LossCause") (str "Loss Cause") draft (Some (str "en"))
    (str "Causes of loss.") [].
Definition emptyRecordDisk : Disk :=
  writeCodeSystem LOSS_CAUSE emptyRecord noDisk.

(** The directory of [lossCauseDisk] with one more file. *)
Definition twoFileDisk : Disk :=
  writeCodeSystem LINE_OF_BUSINESS emptyRecord lossCauseDisk.

(** A code-list without French displays. *)
Definition plainCodeList : CodeListFile :=
  mkCodeListFile (str "CauseOfLoss")
    [ mkCodeListCode (str "THEFT") (str "Theft") None None ].

(** Two clock readings. *)
Definition T1 : jsstring := str "2026-01-01T00:00:00.000Z".
Definition T2 : jsstring := str "2026-01-01T00:00:05.000Z".

(* ------------------------------------------------------------------ *)
(** ** Strings, sets and maps *)
(* ------------------------------------------------------------------ *)

(** A lemma depends on the case tables and the collation only when its
    statement does. *)
Set Default Proof Using "Type".

(** Drop the host functions from the context where the goal does not speak
    of them, so that automation cannot pick them up. *)
Ltac forget_host :=
  try clear localeCompare; try clear unicodeUpper; try clear unicodeLower.

Lemma streq_eq (a b : jsstring) : streq a b = true <-> a = b.
Proof.
  revert b; induction a as [|x a IH]; intros [|y b]; simpl;
    try (split; [discriminate|congruence]); [tauto|].
  rewrite andb_true_iff, N.eqb_eq, IH. split; [intros []|intros [=]]; now subst.
Qed.

Lemma streq_refl (a : jsstring) : streq a a = true.
Proof. now apply streq_eq. Qed.

Lemma streq_neq (a b : jsstring) : a <> b -> streq a b = false.
Proof.
  intros H. destruct (streq a b) eqn:E; [|reflexivity].
  now apply streq_eq in E.
Qed.

Lemma streq_false (a b : jsstring) : streq a b = false -> a <> b.
Proof. intros E <-. now rewrite streq_refl in E. Qed.

Lemma jsstring_eq_dec (a b : jsstring) : {a = b} + {a <> b}.
Proof.
  destruct (streq a b) eqn:E; [left; now apply streq_eq|right].
  now apply streq_false.
Qed.

Lemma set_has_In (k : jsstring) (s : list jsstring) :
  set_has k s = true <-> In k s.
Proof.
  unfold set_has. rewrite existsb_exists. split.
  - intros (x & Hin & E). apply streq_eq in E. now subst.
  - intros Hin. exists k. split; [assumption|apply streq_refl].
Qed.

Lemma set_has_notIn (k : jsstring) (s : list jsstring) :
  set_has k s = false <-> ~ In k s.
Proof.
  rewrite <- set_has_In. destruct (set_has k s); split; congruence.
Qed.

Lemma set_add_In (x k : jsstring) (s : list jsstring) :
  In x (set_add k s) <-> x = k \/ In x s.
Proof. forget_host.
  unfold set_add. destruct (set_has k s) eqn:E.
  - apply set_has_In in E. split; [tauto|]. intros [->|]; assumption.
  - rewrite in_app_iff. simpl. intuition.
Qed.

Lemma set_add_fresh (k : jsstring) (s : list jsstring) :
  ~ In k s -> set_add k s = s ++ [k].
Proof. intros H. apply set_has_notIn in H. unfold set_add. now rewrite H. Qed.

Lemma fold_set_add_In (x : jsstring) (l s : list jsstring) :
  In x (fold_left (fun s k => set_add k s) l s) <-> In x l \/ In x s.
Proof. forget_host.
  revert s; induction l as [|k l IH]; intros s; simpl; [tauto|].
  rewrite IH, set_add_In. intuition.
Qed.

Lemma set_add_NoDup (k : jsstring) (s : list jsstring) :
  NoDup s -> NoDup (set_add k s).
Proof.
  intros H. unfold set_add. destruct (set_has k s) eqn:E; [assumption|].
  apply set_has_notIn in E. apply NoDup_app; [assumption|repeat constructor; intros []|].
  intros x Hx [<-|[]]. contradiction.
Qed.

Lemma fold_set_add_NoDup (l s : list jsstring) :
  NoDup s -> NoDup (fold_left (fun s k => set_add k s) l s).
Proof.
  revert s; induction l as [|k l IH]; intros s H; simpl; [assumption|].
  apply IH. now apply set_add_NoDup.
Qed.

Lemma fold_codes_In (x : jsstring) (l : list BindConcept) (s : list jsstring) :
  In x (fold_left (fun s c => set_add (code c) s) l s)
  <-> In x (map code l) \/ In x s.
Proof. forget_host.
  revert s; induction l as [|c l IH]; intros s; simpl; [tauto|].
  rewrite IH, set_add_In. intuition.
Qed.

Lemma existingCodesOf_In (x : jsstring) (cs : BindCodeSystem) :
  In x (existingCodesOf (Some cs)) <-> In x (map code (concept cs)).
Proof.
  forget_host. unfold existingCodesOf. rewrite fold_codes_In. simpl. tauto.
Qed.

Section MapLemmas.

Variable V : Type.
Implicit Types (m : JsMap V) (k : jsstring) (v : V).

Lemma map_get_None k m : map_get k m = None <-> ~ In k (map_keys m).
Proof. forget_host.
  induction m as [|[k' v'] m IH]; simpl; [tauto|].
  destruct (streq k' k) eqn:E.
  - apply streq_eq in E. split; [discriminate|]. intros H. exfalso. auto.
  - apply streq_false in E. rewrite IH. tauto.
Qed.

Lemma map_get_In k v m : map_get k m = Some v -> In (k, v) m.
Proof.
  induction m as [|[k' v'] m IH]; simpl; [discriminate|].
  destruct (streq k' k) eqn:E.
  - apply streq_eq in E. intros [= ->]. subst. now left.
  - auto.
Qed.

Lemma In_map_get k v m : NoDup (map_keys m) -> In (k, v) m -> map_get k m = Some v.
Proof. forget_host.
  induction m as [|[k' v'] m IH]; simpl; [tauto|].
  intros Hnd [[= -> ->]|Hin].
  - now rewrite streq_refl.
  - inversion Hnd as [|? ? Hk Hnd']; subst.
    rewrite streq_neq; [now apply IH|].
    intros ->. apply Hk. change k with (fst (k, v)). now apply in_map.
Qed.

Lemma map_get_set_same k v m : map_get k (map_set k v m) = Some v.
Proof.
  induction m as [|[k' v'] m IH]; simpl; [now rewrite streq_refl|].
  destruct (streq k' k) eqn:E; simpl; now rewrite E.
Qed.

Lemma map_get_set_other k k' v m :
  k' <> k -> map_get k' (map_set k v m) = map_get k' m.
Proof.
  intros Hne. induction m as [|[k0 v0] m IH]; simpl.
  - rewrite streq_neq; [reflexivity|congruence].
  - destruct (streq k0 k) eqn:E; simpl.
    + apply streq_eq in E; subst k0.
      rewrite streq_neq; [reflexivity|congruence].
    + now rewrite IH.
Qed.

Lemma map_keys_set_In k k' v m :
  In k' (map_keys (map_set k v m)) <-> k' = k \/ In k' (map_keys m).
Proof. forget_host.
  induction m as [|[k0 v0] m IH]; simpl; [intuition|].
  destruct (streq k0 k) eqn:E; simpl.
  - apply streq_eq in E; subst. intuition.
  - rewrite IH. intuition.
Qed.

Lemma map_set_NoDup k v m :
  NoDup (map_keys m) -> NoDup (map_keys (map_set k v m)).
Proof. forget_host.
  induction m as [|[k0 v0] m IH]; simpl; intros Hnd.
  - repeat constructor. intros [].
  - inversion Hnd as [|? ? Hk Hnd']; subst.
    destruct (streq k0 k) eqn:E; simpl; [now constructor|].
    constructor; [|now apply IH].
    rewrite map_keys_set_In. apply streq_false in E. intuition.
Qed.

Lemma find_key_None k m :
  map_get k m = None -> find (fun kv => streq (fst kv) k) m = None.
Proof.
  induction m as [|[k0 v0] m IH]; simpl; [reflexivity|].
  destruct (streq k0 k); [discriminate|assumption].
Qed.

End MapLemmas.

(* ------------------------------------------------------------------ *)
(** ** De-duplication *)
(* ------------------------------------------------------------------ *)

Section Dedup.

Variable E : Type.
Variable key : E -> jsstring.
Variable repl : E -> E -> bool.

Lemma dedupStepWith_NoDup (m : JsMap E) (e : E) :
  NoDup (map_keys m) -> NoDup (map_keys (dedupStepWith key repl m e)).
Proof.
  intros H. unfold dedupStepWith.
  destruct (map_get (key e) m); [destruct (repl _ _)|];
    auto using map_set_NoDup.
Qed.

Lemma dedup_NoDup (l : list E) (m : JsMap E) :
  NoDup (map_keys m) ->
  NoDup (map_keys (fold_left (dedupStepWith key repl) l m)).
Proof.
  revert m; induction l as [|e l IH]; intros m H; simpl; [assumption|].
  apply IH. now apply dedupStepWith_NoDup.
Qed.

Lemma dedupStepWith_get (b : jsstring) (m : JsMap E) (e : E) :
  map_get b (dedupStepWith key repl m e) =
  if streq (key e) b then winnerStep repl (map_get b m) e else map_get b m.
Proof.
  unfold dedupStepWith, winnerStep.
  destruct (streq (key e) b) eqn:Ek.
  - apply streq_eq in Ek; subst b.
    destruct (map_get (key e) m) as [w|] eqn:G.
    + destruct (repl w e); [apply map_get_set_same|assumption].
    + apply map_get_set_same.
  - apply streq_false in Ek.
    destruct (map_get (key e) m) as [w|]; [destruct (repl w e)|];
      try reflexivity; apply map_get_set_other; congruence.
Qed.

Lemma dedup_get (b : jsstring) (l : list E) (m : JsMap E) :
  map_get b (fold_left (dedupStepWith key repl) l m) =
  fold_left (winnerStep repl) (groupOf key b l) (map_get b m).
Proof.
  revert m; induction l as [|e l IH]; intros m; simpl; [reflexivity|].
  rewrite IH, dedupStepWith_get.
  destruct (streq (key e) b); reflexivity.
Qed.

Lemma dedup_winner_source (l : list E) (m : JsMap E) (b : jsstring) (e : E) :
  (forall b' e', In (b', e') m -> key e' = b') ->
  In (b, e) (fold_left (dedupStepWith key repl) l m) ->
  key e = b /\ (In e l \/ In (b, e) m).
Proof.
  revert m; induction l as [|x l IH]; intros m Hm Hin; simpl in *.
  - split; [now apply Hm|now right].
  - assert (Hset : forall b' e', In (b', e') (map_set (key x) x m) ->
                     (b', e') = (key x, x) \/ In (b', e') m).
    { clear. induction m as [|[k0 v0] m IHm]; simpl; intros b' e'.
      - intuition.
      - destruct (streq k0 (key x)) eqn:Ek; simpl.
        + apply streq_eq in Ek; subst. intuition.
        + intros [H|H]; [auto|]. apply IHm in H. intuition. }
    apply IH in Hin.
    + destruct Hin as [Hk [Hin|Hin]]; [auto|]. split; [assumption|].
      unfold dedupStepWith in Hin.
      destruct (map_get (key x) m); [destruct (repl _ _)|]; auto;
        apply Hset in Hin as [[= -> ->]|Hin]; auto.
    + intros b' e' H. unfold dedupStepWith in H.
      destruct (map_get (key x) m); [destruct (repl _ _)|]; auto;
        apply Hset in H as [[= -> ->]|H]; auto.
Qed.

Variables dep ok : E -> bool.
Hypothesis repl_eq : forall w e, repl w e = dep w && ok e.
Hypothesis ok_not_dep : forall e, ok e = true -> dep e = false.

Lemma winner_stable (w : E) (l : list E) :
  dep w = false -> fold_left (winnerStep repl) l (Some w) = Some w.
Proof using repl_eq.
  intros Hw. induction l as [|e l IH]; simpl; [reflexivity|].
  now rewrite repl_eq, Hw.
Qed.

Lemma winner_fold (group : list E) :
  fold_left (winnerStep repl) group None = winnerOf dep ok group.
Proof using repl_eq ok_not_dep.
  destruct group as [|first later]; simpl; [reflexivity|].
  destruct (dep first) eqn:Hd; [|now apply winner_stable].
  induction later as [|e later IH]; simpl; [reflexivity|].
  rewrite repl_eq, Hd. simpl. destruct (ok e) eqn:Ho.
  - apply winner_stable. now apply ok_not_dep.
  - exact IH.
Qed.

End Dedup.

Definition codeListRepl (existing c : CodeListCode) : bool :=
  flag (cl_deprecated existing) && negb (flag (cl_deprecated c))
  && negb (startsWith DEPRECATED (cl_display c)).

Definition topLevelRepl (existing entry : TopLevelEntry) : bool :=
  topLevelDeprecated existing && truthy (tl_display entry)
  && negb (startsWith DEPRECATED (text (tl_display entry))).

Lemma dedupCodeList_scheme (cs : list CodeListCode) :
  dedupCodeList cs = fold_left (dedupStepWith codeListKey codeListRepl) cs [].
Proof. reflexivity. Qed.

Lemma dedupTopLevel_scheme (entries : list TopLevelEntry) :
  dedupTopLevel entries =
  fold_left (dedupStepWith topLevelKey topLevelRepl) entries [].
Proof. reflexivity. Qed.

Lemma dedupCodeList_NoDup (cs : list CodeListCode) :
  NoDup (map_keys (dedupCodeList cs)).
Proof. rewrite dedupCodeList_scheme. apply dedup_NoDup. constructor. Qed.

Lemma dedupTopLevel_NoDup (entries : list TopLevelEntry) :
  NoDup (map_keys (dedupTopLevel entries)).
Proof. rewrite dedupTopLevel_scheme. apply dedup_NoDup. constructor. Qed.

Lemma dedupCodeList_source (cs : list CodeListCode) b c :
  In (b, c) (dedupCodeList cs) -> codeListKey c = b /\ In c cs.
Proof.
  rewrite dedupCodeList_scheme. intros H.
  apply dedup_winner_source in H; [|intros ? ? []].
  destruct H as [Hk [H|[]]]. now split.
Qed.

Lemma dedupTopLevel_source (entries : list TopLevelEntry) b e :
  In (b, e) (dedupTopLevel entries) -> topLevelKey e = b /\ In e entries.
Proof.
  rewrite dedupTopLevel_scheme. intros H.
  apply dedup_winner_source in H; [|intros ? ? []].
  destruct H as [Hk [H|[]]]. now split.
Qed.

Lemma topLevelLive_not_deprecated (e : TopLevelEntry) :
  topLevelLive e = true -> topLevelDeprecated e = false.
Proof. forget_host.
  unfold topLevelLive, topLevelDeprecated.
  destruct (tl_display e) as [d|]; simpl; [|reflexivity].
  rewrite andb_true_iff, negb_true_iff. tauto.
Qed.

Lemma dedupTopLevel_get (entries : list TopLevelEntry) (b : jsstring) :
  map_get b (dedupTopLevel entries) =
  winnerOf topLevelDeprecated topLevelLive (groupOf topLevelKey b entries).
Proof.
  rewrite dedupTopLevel_scheme, dedup_get. simpl.
  apply winner_fold.
  - intros w e. unfold topLevelRepl, topLevelLive. now rewrite andb_assoc.
  - apply topLevelLive_not_deprecated.
Qed.

Lemma dedupCodeList_get (cs : list CodeListCode) (b : jsstring) :
  map_get b (dedupCodeList cs) =
  winnerOf (fun c => flag (cl_deprecated c))
    (fun c => negb (codeListDeprecated c)) (groupOf codeListKey b cs).
Proof. forget_host.
  rewrite dedupCodeList_scheme, dedup_get. simpl.
  apply winner_fold.
  - intros w e. unfold codeListRepl, codeListDeprecated.
    now rewrite negb_orb, andb_assoc.
  - intros e. unfold codeListDeprecated.
    rewrite negb_true_iff, orb_false_iff. tauto.
Qed.

(* ------------------------------------------------------------------ *)
(** ** The second loop of the builders *)
(* ------------------------------------------------------------------ *)

Lemma topLevelDeprecated_truthy (e : TopLevelEntry) :
  topLevelDeprecated e = true -> truthy (tl_display e) = true.
Proof.
  unfold topLevelDeprecated. destruct (tl_display e) as [[|c d]|]; simpl;
    auto; discriminate.
Qed.

Lemma buildCodeList_loop (id : jsstring) (cl : CodeListFile)
  (existingCodes : list jsstring) (seen : JsMap CodeListCode) (b0 : Build) :
  NoDup (map_keys seen) ->
  (forall k, In k (map_keys seen) -> ~ In k (newBindCodes b0)) ->
  fold_left (buildCodeListStep id cl existingCodes) seen b0 =
  mkBuild
    (newConcepts b0
       ++ map (fun kv => codeListConcept (toTitle id) (fst kv) (snd kv))
            (filter (keepCodeList existingCodes) seen))
    (newBindCodes b0 ++ map fst (filter (keepCodeList existingCodes) seen))
    (mappings b0
       ++ map (fun kv => codeListMapping id cl (fst kv) (snd kv)) seen).
Proof.
  revert b0; induction seen as [|[k c] seen IH]; intros b0 Hnd Hfresh; simpl.
  - destruct b0; simpl. now rewrite !app_nil_r.
  - inversion Hnd as [|? ? Hk Hnd']; subst.
    assert (Hkb : set_has k (newBindCodes b0) = false).
    { apply set_has_notIn. apply Hfresh. now left. }
    change (keepCodeList existingCodes (k, c))
      with (negb (codeListDeprecated c) && negb (set_has k existingCodes)).
    rewrite Hkb, orb_false_r.
    destruct (codeListDeprecated c); simpl.
    + rewrite IH; [|assumption|intros k' Hk'; apply Hfresh; now right].
      simpl. rewrite <- ?app_assoc. reflexivity.
    + destruct (set_has k existingCodes); simpl.
      * rewrite IH; [|assumption|intros k' Hk'; apply Hfresh; now right].
        simpl. rewrite <- ?app_assoc. reflexivity.
      * rewrite IH; [|assumption|].
        -- simpl. rewrite set_add_fresh; [|now apply set_has_notIn].
           rewrite <- ?app_assoc. reflexivity.
        -- simpl. intros k' Hk'. rewrite set_add_In. intros [->|Hin].
           ++ contradiction.
           ++ revert Hin. apply Hfresh. now right.
Qed.

Lemma buildTopLevel_loop (id : jsstring) (existingCodes : list jsstring)
  (seen : JsMap TopLevelEntry) (b0 : Build) :
  NoDup (map_keys seen) ->
  (forall k, In k (map_keys seen) -> ~ In k (newBindCodes b0)) ->
  fold_left (buildTopLevelStep id existingCodes) seen b0 =
  mkBuild
    (newConcepts b0
       ++ map (fun kv => topLevelConcept (toTitle id) (fst kv) (snd kv))
            (filter (keepTopLevel existingCodes) seen))
    (newBindCodes b0 ++ map fst (filter (keepTopLevel existingCodes) seen))
    (mappings b0
       ++ map (fun kv => topLevelMapping id (fst kv) (snd kv))
            (filter recordedTopLevel seen)).
Proof.
  revert b0; induction seen as [|[k e] seen IH]; intros b0 Hnd Hfresh; simpl.
  - destruct b0; simpl. now rewrite !app_nil_r.
  - inversion Hnd as [|? ? Hk Hnd']; subst.
    assert (Hkb : set_has k (newBindCodes b0) = false).
    { apply set_has_notIn. apply Hfresh. now left. }
    change (keepTopLevel existingCodes (k, e))
      with (negb (topLevelDeprecated e) && truthy (tl_display e)
            && negb (set_has k existingCodes)).
    change (recordedTopLevel (k, e)) with (truthy (tl_display e)).
    rewrite Hkb, orb_false_r.
    destruct (topLevelDeprecated e) eqn:Hdep; simpl.
    + rewrite (topLevelDeprecated_truthy _ Hdep).
      rewrite IH; [|assumption|intros k' Hk'; apply Hfresh; now right].
      simpl. rewrite <- ?app_assoc. reflexivity.
    + destruct (truthy (tl_display e)); simpl.
      * destruct (set_has k existingCodes); simpl.
        -- rewrite IH; [|assumption|intros k' Hk'; apply Hfresh; now right].
           simpl. rewrite <- ?app_assoc. reflexivity.
        -- rewrite IH; [|assumption|].
           ++ simpl. rewrite set_add_fresh; [|now apply set_has_notIn].
              rewrite <- ?app_assoc. reflexivity.
           ++ simpl. intros k' Hk'. rewrite set_add_In. intros [->|Hin].
              ** contradiction.
              ** revert Hin. apply Hfresh. now right.
      * apply IH; [assumption|intros k' Hk'; apply Hfresh; now right].
Qed.

Lemma buildFromCodeList_spec id cl topLevelEntries existingCS ms :
  buildFromCodeList id cl topLevelEntries existingCS ms =
  (mergeOrCreate id existingCS
     (map (fun kv => codeListConcept (toTitle id) (fst kv) (snd kv))
        (filter (keepCodeList (existingCodesOf existingCS))
           (dedupCodeList (codes cl)))),
   ms ++ map (fun kv => codeListMapping id cl (fst kv) (snd kv))
           (dedupCodeList (codes cl))).
Proof.
  unfold buildFromCodeList. cbv zeta.
  rewrite buildCodeList_loop; [reflexivity|apply dedupCodeList_NoDup|].
  intros k _ [].
Qed.

Lemma buildFromTopLevel_spec id entries existingCS ms :
  buildFromTopLevel id entries existingCS ms =
  (mergeOrCreate id existingCS
     (map (fun kv => topLevelConcept (toTitle id) (fst kv) (snd kv))
        (filter (keepTopLevel (existingCodesOf existingCS))
           (dedupTopLevel entries))),
   ms ++ map (fun kv => topLevelMapping id (fst kv) (snd kv))
           (filter recordedTopLevel (dedupTopLevel entries))).
Proof.
  unfold buildFromTopLevel.
  rewrite buildTopLevel_loop; [reflexivity|apply dedupTopLevel_NoDup|].
  intros k _ [].
Qed.

(* ------------------------------------------------------------------ *)
(** ** One id *)
(* ------------------------------------------------------------------ *)

Lemma concept_mergeOrCreate id existingCS new :
  concept (mergeOrCreate id existingCS new) = existingConcepts existingCS ++ new.
Proof. destruct existingCS; reflexivity. Qed.

Lemma mergeOrCreate_again id existingCS new :
  mergeOrCreate id (Some (mergeOrCreate id existingCS new)) [] =
  mergeOrCreate id existingCS new.
Proof. destruct existingCS; simpl; now rewrite app_nil_r. Qed.

(** The search for a matching code-list runs only where the id has no
    code-list, and there it finds nothing. *)
Lemma buildForId_eq topLevelMap codeListMap id existingCS ms :
  buildForId topLevelMap codeListMap id existingCS ms =
  match map_get id codeListMap, map_get id topLevelMap with
  | Some cl, Some entries =>
      Some (mergeOrCreate id
              (Some (mergeOrCreate id existingCS
                       (newFromCodeList id existingCS cl)))
              (newFromTopLevel id
                 (Some (mergeOrCreate id existingCS
                          (newFromCodeList id existingCS cl)))
                 entries),
            (ms ++ codeListMappings id cl) ++ topLevelMappings id entries)
  | Some cl, None =>
      Some (mergeOrCreate id existingCS (newFromCodeList id existingCS cl),
            ms ++ codeListMappings id cl)
  | None, Some entries =>
      Some (mergeOrCreate id existingCS
              (newFromTopLevel id existingCS entries),
            ms ++ topLevelMappings id entries)
  | None, None => None
  end.
Proof.
  unfold buildForId.
  destruct (map_get id codeListMap) as [cl|] eqn:Hcl.
  - rewrite buildFromCodeList_spec.
    destruct (map_get id topLevelMap) as [entries|]; [|reflexivity].
    now rewrite buildFromTopLevel_spec.
  - destruct (map_get id topLevelMap) as [entries|]; [|reflexivity].
    rewrite buildFromTopLevel_spec, (find_key_None _ _ Hcl). reflexivity.
Qed.

Lemma buildForId_split topLevelMap codeListMap id existingCS ms :
  buildForId topLevelMap codeListMap id existingCS ms =
  match builtFor topLevelMap codeListMap id existingCS with
  | Some cs => Some (cs, ms ++ idMappings topLevelMap codeListMap id)
  | None => None
  end.
Proof.
  unfold builtFor, idMappings. rewrite !buildForId_eq.
  destruct (map_get id codeListMap), (map_get id topLevelMap); simpl;
    rewrite ?app_nil_r, ?app_assoc; reflexivity.
Qed.

Lemma idMappings_unbuilt topLevelMap codeListMap id existingCS :
  builtFor topLevelMap codeListMap id existingCS = None ->
  idMappings topLevelMap codeListMap id = [].
Proof.
  unfold builtFor, idMappings. rewrite buildForId_eq.
  destruct (map_get id codeListMap), (map_get id topLevelMap);
    simpl; congruence.
Qed.

Lemma processId_mappings topLevelMap codeListMap st id :
  run_mappings (processId topLevelMap codeListMap st id) =
  run_mappings st ++ idMappings topLevelMap codeListMap id.
Proof.
  unfold processId. rewrite buildForId_split.
  destruct (builtFor _ _ _ _) as [cs|] eqn:Hb.
  - destruct (concept cs); [reflexivity|]. now destruct (disk st id).
  - rewrite (idMappings_unbuilt _ _ _ _ Hb). now rewrite app_nil_r.
Qed.

Lemma processId_disk topLevelMap codeListMap st id id' :
  disk (processId topLevelMap codeListMap st id) id' =
  if streq id id' then
    match writtenFor topLevelMap codeListMap id (disk st id) with
    | Some cs => Some cs
    | None => disk st id'
    end
  else disk st id'.
Proof.
  unfold processId, writtenFor. rewrite buildForId_split.
  destruct (builtFor _ _ _ _) as [cs|].
  - destruct (concept cs).
    + simpl. now destruct (streq id id').
    + destruct (disk st id); reflexivity.
  - now destruct (streq id id').
Qed.

Lemma fold_processId_mappings topLevelMap codeListMap ids st :
  run_mappings (fold_left (processId topLevelMap codeListMap) ids st) =
  run_mappings st ++ flat_map (idMappings topLevelMap codeListMap) ids.
Proof.
  revert st; induction ids as [|id ids IH]; intros st; simpl.
  - now rewrite app_nil_r.
  - now rewrite IH, processId_mappings, app_assoc.
Qed.

Lemma fold_processId_disk_other topLevelMap codeListMap ids st id :
  ~ In id ids ->
  disk (fold_left (processId topLevelMap codeListMap) ids st) id = disk st id.
Proof. forget_host.
  revert st; induction ids as [|x ids IH]; intros st Hin; simpl;
    [reflexivity|].
  rewrite IH by (simpl in Hin; tauto).
  rewrite processId_disk, streq_neq; [reflexivity|].
  intros ->. apply Hin. now left.
Qed.

Lemma fold_processId_disk topLevelMap codeListMap ids st id :
  NoDup ids -> In id ids ->
  disk (fold_left (processId topLevelMap codeListMap) ids st) id =
  match writtenFor topLevelMap codeListMap id (disk st id) with
  | Some cs => Some cs
  | None => disk st id
  end.
Proof.
  revert st; induction ids as [|x ids IH]; intros st Hnd Hin; simpl;
    [destruct Hin|].
  inversion Hnd as [|? ? Hx Hnd']; subst.
  destruct (jsstring_eq_dec x id) as [->|Hne].
  - rewrite fold_processId_disk_other by assumption.
    now rewrite processId_disk, streq_refl.
  - destruct Hin as [->|Hin]; [congruence|].
    rewrite IH by assumption.
    now rewrite processId_disk, streq_neq.
Qed.

(* ------------------------------------------------------------------ *)
(** ** The whole run *)
(* ------------------------------------------------------------------ *)

Lemma insertId_perm x l : Permutation (insertId x l) (x :: l).
Proof.
  induction l as [|y l IH]; simpl; [reflexivity|].
  destruct (strltb x y); [reflexivity|].
  rewrite IH. apply perm_swap.
Qed.

Lemma sortIds_perm ids : Permutation (sortIds ids) ids.
Proof.
  unfold sortIds.
  enough (H : forall acc,
             Permutation (fold_left (fun acc x => insertId x acc) ids acc)
               (ids ++ acc)) by (rewrite H; now rewrite app_nil_r).
  induction ids as [|x ids IH]; intros acc; simpl; [reflexivity|].
  rewrite IH, insertId_perm. symmetry. apply Permutation_middle.
Qed.

Lemma insertMapping_perm x l : Permutation (insertMapping x l) (x :: l).
Proof.
  induction l as [|y l IH]; simpl; [reflexivity|].
  destruct (compareMappings x y <? 0)%Z; [reflexivity|].
  rewrite IH. apply perm_swap.
Qed.

Lemma sortMappings_perm ms : Permutation (sortMappings ms) ms.
Proof.
  unfold sortMappings.
  enough (H : forall acc,
             Permutation (fold_left (fun acc x => insertMapping x acc) ms acc)
               (ms ++ acc)) by (rewrite H; now rewrite app_nil_r).
  induction ms as [|x ms IH]; intros acc; simpl; [reflexivity|].
  rewrite IH, insertMapping_perm. symmetry. apply Permutation_middle.
Qed.

Lemma allIds_In topLevelMap codeListMap id :
  In id (allIds topLevelMap codeListMap) <->
  In id (map_keys topLevelMap) \/ In id (map_keys codeListMap).
Proof. forget_host.
  unfold allIds. rewrite fold_set_add_In, in_app_iff. simpl. tauto.
Qed.

Lemma allIds_NoDup topLevelMap codeListMap :
  NoDup (allIds topLevelMap codeListMap).
Proof. apply fold_set_add_NoDup. constructor. Qed.

Lemma builtFor_unlisted topLevelMap codeListMap id existingCS :
  ~ In id (allIds topLevelMap codeListMap) ->
  builtFor topLevelMap codeListMap id existingCS = None.
Proof. forget_host.
  rewrite allIds_In. intros H. unfold builtFor. rewrite buildForId_eq.
  assert (Hc : map_get id codeListMap = None) by (apply map_get_None; tauto).
  assert (Ht : map_get id topLevelMap = None) by (apply map_get_None; tauto).
  now rewrite Hc, Ht.
Qed.

(** The file [<id>.json] after a run: what the run wrote for [id], or what
    was there before. *)
Lemma main_disk topLevelMap codeListMap now d id :
  out_disk (main topLevelMap codeListMap now d) id =
  match writtenFor topLevelMap codeListMap id (d id) with
  | Some cs => Some cs
  | None => d id
  end.
Proof.
  unfold main. simpl.
  destruct (in_dec jsstring_eq_dec id (allIds topLevelMap codeListMap))
    as [Hin|Hout].
  - rewrite fold_processId_disk; [reflexivity| |].
    + apply (Permutation_NoDup (l := allIds topLevelMap codeListMap));
        [symmetry; apply sortIds_perm|apply allIds_NoDup].
    + apply (Permutation_in (l := allIds topLevelMap codeListMap));
        [symmetry; apply sortIds_perm|assumption].
  - rewrite fold_processId_disk_other.
    + unfold writtenFor. now rewrite builtFor_unlisted.
    + intros H. apply Hout.
      apply (Permutation_in (l := sortIds (allIds topLevelMap codeListMap)));
        [apply sortIds_perm|assumption].
Qed.

(** The mappings of a run, before sorting: those of each id, in id order.
    They do not depend on what is on disk. *)
Lemma main_mappings topLevelMap codeListMap now d :
  file_mappings (out_mapping (main topLevelMap codeListMap now d)) =
  sortMappings
    (flat_map (idMappings topLevelMap codeListMap)
       (sortIds (allIds topLevelMap codeListMap))).
Proof. unfold main. simpl. now rewrite fold_processId_mappings. Qed.

Lemma main_mappings_In topLevelMap codeListMap now d id m :
  In id (allIds topLevelMap codeListMap) ->
  In m (idMappings topLevelMap codeListMap id) ->
  In m (file_mappings (out_mapping (main topLevelMap codeListMap now d))).
Proof.
  intros Hid Hm. rewrite main_mappings.
  apply (Permutation_in (l := flat_map (idMappings topLevelMap codeListMap)
                                (sortIds (allIds topLevelMap codeListMap))));
    [symmetry; apply sortMappings_perm|].
  apply in_flat_map. exists id. split; [|assumption].
  apply (Permutation_in (l := allIds topLevelMap codeListMap));
    [symmetry; apply sortIds_perm|assumption].
Qed.

(** Read [Some x = Some y -> _] without unfolding [x]. *)
Ltac some_inv :=
  match goal with
  | |- Some ?x = Some ?y -> _ =>
      let H := fresh in
      intros H; assert (x = y) by congruence; clear H; subst y
  end.

Lemma builtFor_concept topLevelMap codeListMap id existingCS cs :
  builtFor topLevelMap codeListMap id existingCS = Some cs ->
  concept cs =
  existingConcepts existingCS
    ++ appendedFor topLevelMap codeListMap id existingCS.
Proof.
  unfold builtFor, appendedFor. rewrite buildForId_eq.
  destruct (map_get id codeListMap), (map_get id topLevelMap); simpl;
    intros [= <-]; rewrite ?concept_mergeOrCreate; simpl;
    rewrite ?concept_mergeOrCreate, ?app_assoc; reflexivity.
Qed.

Lemma writtenFor_builtFor topLevelMap codeListMap id existingCS cs :
  writtenFor topLevelMap codeListMap id existingCS = Some cs ->
  builtFor topLevelMap codeListMap id existingCS = Some cs.
Proof.
  unfold writtenFor. destruct (builtFor _ _ _ _) as [cs'|]; [|discriminate].
  destruct (concept cs'); [discriminate|congruence].
Qed.

(** The concepts of [<id>.json] after a run, from those before it. *)
Lemma main_concepts topLevelMap codeListMap now d id cs :
  out_disk (main topLevelMap codeListMap now d) id = Some cs ->
  exists appended,
    concept cs = existingConcepts (d id) ++ appended
    /\ (appended = [] \/
        appended = appendedFor topLevelMap codeListMap id (d id)).
Proof.
  rewrite main_disk.
  destruct (writtenFor topLevelMap codeListMap id (d id)) as [cs'|] eqn:Hw.
  - intros [= ->]. apply writtenFor_builtFor, builtFor_concept in Hw.
    eexists. split; [eassumption|now right].
  - intros Hd. exists []. rewrite Hd. simpl. rewrite app_nil_r. auto.
Qed.

Lemma existingCodesOf_In' (x : jsstring) existingCS :
  In x (existingCodesOf existingCS) <->
  In x (map code (existingConcepts existingCS)).
Proof.
  destruct existingCS as [cs|]; [apply existingCodesOf_In|reflexivity].
Qed.

Lemma NoDup_keys_filter {V : Type} (f : jsstring * V -> bool) (m : JsMap V) :
  NoDup (map_keys m) -> NoDup (map_keys (filter f m)).
Proof.
  induction m as [|kv m IH]; simpl; intros H; [constructor|].
  inversion H as [|? ? Hk Hnd]; subst.
  destruct (f kv); simpl; [|now apply IH].
  constructor; [|now apply IH].
  intros Hin. apply Hk. unfold map_keys in *.
  apply in_map_iff in Hin as (y & Hy & Hin). apply filter_In in Hin as [Hin _].
  rewrite <- Hy. now apply in_map.
Qed.

Lemma newFromTopLevel_codes id existingCS entries :
  map code (newFromTopLevel id existingCS entries) =
  map_keys (filter (keepTopLevel (existingCodesOf existingCS))
              (dedupTopLevel entries)).
Proof. unfold newFromTopLevel. now rewrite map_map. Qed.

Lemma newFromCodeList_codes id existingCS cl :
  map code (newFromCodeList id existingCS cl) =
  map_keys (filter (keepCodeList (existingCodesOf existingCS))
              (dedupCodeList (codes cl))).
Proof. unfold newFromCodeList. now rewrite map_map. Qed.

Lemma mergeTopLevel_NoDup id existingCS entries :
  NoDup (map code (existingConcepts existingCS)) ->
  NoDup (map code (concept (mergeOrCreate id existingCS
                              (newFromTopLevel id existingCS entries)))).
Proof.
  intros H. rewrite concept_mergeOrCreate, map_app, newFromTopLevel_codes.
  apply NoDup_app; [assumption| |].
  - apply NoDup_keys_filter, dedupTopLevel_NoDup.
  - intros x Hx Hin. apply in_map_iff in Hin as ([k e] & <- & Hin).
    apply filter_In in Hin as [_ Hkeep]. unfold keepTopLevel in Hkeep.
    apply andb_true_iff in Hkeep as [_ Hhas].
    apply negb_true_iff in Hhas. simpl in Hhas. apply set_has_notIn in Hhas.
    apply Hhas. now apply existingCodesOf_In'.
Qed.

Lemma mergeCodeList_NoDup id existingCS cl :
  NoDup (map code (existingConcepts existingCS)) ->
  NoDup (map code (concept (mergeOrCreate id existingCS
                              (newFromCodeList id existingCS cl)))).
Proof.
  intros H. rewrite concept_mergeOrCreate, map_app, newFromCodeList_codes.
  apply NoDup_app; [assumption| |].
  - apply NoDup_keys_filter, dedupCodeList_NoDup.
  - intros x Hx Hin. apply in_map_iff in Hin as ([k e] & <- & Hin).
    apply filter_In in Hin as [_ Hkeep]. unfold keepCodeList in Hkeep.
    apply andb_true_iff in Hkeep as [_ Hhas].
    apply negb_true_iff in Hhas. simpl in Hhas. apply set_has_notIn in Hhas.
    apply Hhas. now apply existingCodesOf_In'.
Qed.

Lemma builtFor_NoDup topLevelMap codeListMap id existingCS cs :
  NoDup (map code (existingConcepts existingCS)) ->
  builtFor topLevelMap codeListMap id existingCS = Some cs ->
  NoDup (map code (concept cs)).
Proof.
  intros H. unfold builtFor. rewrite buildForId_eq.
  destruct (map_get id codeListMap), (map_get id topLevelMap);
    cbn [option_map fst]; try discriminate; some_inv.
  - apply mergeTopLevel_NoDup. cbn [existingConcepts].
    now apply mergeCodeList_NoDup.
  - now apply mergeCodeList_NoDup.
  - now apply mergeTopLevel_NoDup.
Qed.

(* ------------------------------------------------------------------ *)
(** ** Properties of a run *)
(* ------------------------------------------------------------------ *)

(** C8. Uniqueness: when the code system found on disk for an id has
    pairwise distinct concept codes, so has the code system in [<id>.json]
    after the run; no appended code equals an existing or another appended
    code. *)
Theorem written_codes_unique topLevelMap codeListMap now d id cs :
  (forall cs0, d id = Some cs0 -> NoDup (map code (concept cs0))) ->
  out_disk (main topLevelMap codeListMap now d) id = Some cs ->
  NoDup (map code (concept cs)).
Proof.
  intros Hd. rewrite main_disk.
  destruct (writtenFor topLevelMap codeListMap id (d id)) as [cs'|] eqn:Hw.
  - intros [= ->]. apply writtenFor_builtFor in Hw.
    apply (builtFor_NoDup _ _ _ _ (cs := cs)) in Hw; [assumption|].
    destruct (d id) as [cs0|]; simpl; [now apply Hd|constructor].
  - apply Hd.
Qed.

Lemma concept_preserved_refl (c : BindConcept) : concept_preserved c c.
Proof. unfold concept_preserved. auto. Qed.

Lemma Forall2_preserved_refl (l : list BindConcept) :
  Forall2 concept_preserved l l.
Proof. induction l; constructor; auto using concept_preserved_refl. Qed.

(** The enricher, wherever it is applied, only gives a designation to
    concepts that have none. *)
Lemma enrichWithCodeList_preserves (cs : BindCodeSystem) (cl : CodeListFile) :
  Forall2 concept_preserved (concept cs) (concept (enrichWithCodeList cs cl)).
Proof.
  simpl. induction (concept cs) as [|c l IH]; simpl; constructor; [|exact IH].
  unfold enrichConcept. destruct (hasDesignation c) eqn:Hh;
    [apply concept_preserved_refl|].
  destruct (match map_get (code c) (codeLookup cl) with
            | Some x => Some x
            | None => map_get (toLowerCase (display c)) (displayLookup cl)
            end) as [x|]; [|apply concept_preserved_refl].
  unfold frenchDesignation.
  destruct (truthy (cl_display_fr x)); [|apply concept_preserved_refl].
  destruct (cleanDisplay (text (cl_display_fr x))) as [|u fr];
    [apply concept_preserved_refl|].
  unfold concept_preserved; simpl. repeat split. right. eauto.
Qed.

(** C2. Append-only: a code system that exists before a run is still there
    after it, with every concept it had in place and unchanged in code,
    display, definition and designations, but for a designation given to a
    concept that had none; new concepts only come after them. *)
Theorem run_append_only topLevelMap codeListMap now d id cs0 :
  d id = Some cs0 ->
  exists cs1,
    out_disk (main topLevelMap codeListMap now d) id = Some cs1
    /\ appendOnly (concept cs0) (concept cs1).
Proof.
  intros Hd.
  destruct (out_disk (main topLevelMap codeListMap now d) id) as [cs1|] eqn:Ho.
  - exists cs1. split; [reflexivity|].
    apply main_concepts in Ho as (appended & Hc & _).
    rewrite Hd in Hc. simpl in Hc.
    exists (concept cs0), appended. split; [assumption|].
    apply Forall2_preserved_refl.
  - rewrite main_disk, Hd in Ho.
    destruct (writtenFor _ _ _ _); discriminate.
Qed.

(* ------------------------------------------------------------------ *)
(** ** Running again *)
(* ------------------------------------------------------------------ *)

Lemma filter_none {A : Type} (f : A -> bool) (l : list A) :
  (forall x, In x l -> f x = false) -> filter f l = [].
Proof.
  induction l as [|x l IH]; simpl; intros H; [reflexivity|].
  rewrite H by now left. apply IH. intros y Hy. apply H. now right.
Qed.

Lemma newFromTopLevel_covered id cs entries :
  (forall b e, In (b, e) (dedupTopLevel entries) ->
     topLevelDeprecated e = false -> truthy (tl_display e) = true ->
     In b (map code (concept cs))) ->
  newFromTopLevel id (Some cs) entries = [].
Proof.
  intros H. unfold newFromTopLevel. rewrite filter_none; [reflexivity|].
  intros [b e] Hin. unfold keepTopLevel. simpl fst; simpl snd.
  destruct (topLevelDeprecated e) eqn:Hd; [reflexivity|].
  destruct (truthy (tl_display e)) eqn:Ht; [|reflexivity]. simpl.
  apply negb_false_iff, set_has_In, existingCodesOf_In. eauto.
Qed.

Lemma newFromCodeList_covered id cs cl :
  (forall b c, In (b, c) (dedupCodeList (codes cl)) ->
     codeListDeprecated c = false -> In b (map code (concept cs))) ->
  newFromCodeList id (Some cs) cl = [].
Proof.
  intros H. unfold newFromCodeList. rewrite filter_none; [reflexivity|].
  intros [b c] Hin. unfold keepCodeList. simpl fst; simpl snd.
  destruct (codeListDeprecated c) eqn:Hd; [reflexivity|]. simpl.
  apply negb_false_iff, set_has_In, existingCodesOf_In. eauto.
Qed.

Lemma topLevel_winner_merged id existingCS entries b e :
  In (b, e) (dedupTopLevel entries) ->
  topLevelDeprecated e = false -> truthy (tl_display e) = true ->
  In b (map code (concept (mergeOrCreate id existingCS
                             (newFromTopLevel id existingCS entries)))).
Proof.
  intros Hin Hd Ht.
  rewrite concept_mergeOrCreate, map_app, newFromTopLevel_codes, in_app_iff.
  destruct (set_has b (existingCodesOf existingCS)) eqn:Hh.
  - left. now apply existingCodesOf_In', set_has_In.
  - right. change b with (fst (b, e)). apply in_map. apply filter_In.
    split; [assumption|]. unfold keepTopLevel. simpl. now rewrite Hd, Ht, Hh.
Qed.

Lemma codeList_winner_merged id existingCS cl b c :
  In (b, c) (dedupCodeList (codes cl)) ->
  codeListDeprecated c = false ->
  In b (map code (concept (mergeOrCreate id existingCS
                             (newFromCodeList id existingCS cl)))).
Proof.
  intros Hin Hd.
  rewrite concept_mergeOrCreate, map_app, newFromCodeList_codes, in_app_iff.
  destruct (set_has b (existingCodesOf existingCS)) eqn:Hh.
  - left. now apply existingCodesOf_In', set_has_In.
  - right. change b with (fst (b, c)). apply in_map. apply filter_In.
    split; [assumption|]. unfold keepCodeList. simpl. now rewrite Hd, Hh.
Qed.

(** What was built for an id is built again, unchanged, from itself. *)
Lemma builtFor_again topLevelMap codeListMap id existingCS cs :
  builtFor topLevelMap codeListMap id existingCS = Some cs ->
  builtFor topLevelMap codeListMap id (Some cs) = Some cs.
Proof.
  unfold builtFor. rewrite !buildForId_eq.
  destruct (map_get id codeListMap) as [cl|],
           (map_get id topLevelMap) as [entries|];
    cbn [option_map fst]; try discriminate; some_inv; f_equal.
  - set (A := mergeOrCreate id existingCS (newFromCodeList id existingCS cl)).
    set (B := mergeOrCreate id (Some A) (newFromTopLevel id (Some A) entries)).
    assert (Hcl : newFromCodeList id (Some B) cl = []).
    { apply newFromCodeList_covered. intros b c Hin Hd.
      unfold B. rewrite concept_mergeOrCreate, map_app, in_app_iff. left.
      eapply codeList_winner_merged; eassumption. }
    assert (HB : mergeOrCreate id (Some B) [] = B)
      by (unfold B; apply mergeOrCreate_again).
    rewrite Hcl, HB. rewrite newFromTopLevel_covered; [exact HB|].
    intros b e. unfold B. apply topLevel_winner_merged.
  - rewrite newFromCodeList_covered; [apply mergeOrCreate_again|].
    intros b c. apply codeList_winner_merged.
  - rewrite newFromTopLevel_covered; [apply mergeOrCreate_again|].
    intros b e. apply topLevel_winner_merged.
Qed.

Lemma writtenFor_again topLevelMap codeListMap id existingCS cs :
  writtenFor topLevelMap codeListMap id existingCS = Some cs ->
  writtenFor topLevelMap codeListMap id (Some cs) = Some cs.
Proof.
  intros Hw. pose proof (writtenFor_builtFor _ _ _ _ Hw) as Hb.
  unfold writtenFor in *. rewrite (builtFor_again _ _ _ _ Hb).
  rewrite Hb in Hw. exact Hw.
Qed.

Lemma appendedFor_again topLevelMap codeListMap now d id :
  appendedFor topLevelMap codeListMap id
    (out_disk (main topLevelMap codeListMap now d) id) = [].
Proof.
  rewrite main_disk.
  destruct (writtenFor topLevelMap codeListMap id (d id)) as [cs|] eqn:Hw.
  - apply writtenFor_builtFor, builtFor_again, builtFor_concept in Hw.
    simpl in Hw. rewrite <- (app_nil_r (concept cs)) in Hw at 1.
    apply app_inv_head in Hw. now symmetry.
  - unfold writtenFor in Hw.
    destruct (builtFor topLevelMap codeListMap id (d id)) as [cs|] eqn:Hb.
    + apply builtFor_concept in Hb. destruct (concept cs); [|discriminate].
      symmetry in Hb. now apply app_eq_nil in Hb.
    + unfold builtFor in Hb. rewrite buildForId_eq in Hb. unfold appendedFor.
      destruct (map_get id codeListMap), (map_get id topLevelMap);
        try discriminate. reflexivity.
Qed.

(** C1, as the code has it. A second run over the same sources and the
    directory the first run left leaves every file as it was after the
    first run; what it builds for an id has the concepts it read and no
    other, and what it writes is the code system it read.  The sorted
    mappings are those of the first run, while the mapping file carries the
    clock reading of its own run in [generatedAt]. *)
Theorem rerun_idempotent topLevelMap codeListMap now1 now2 d :
  let r1 := main topLevelMap codeListMap now1 d in
  let r2 := main topLevelMap codeListMap now2 (out_disk r1) in
  (forall id, out_disk r2 id = out_disk r1 id)
  /\ (forall id,
        match builtFor topLevelMap codeListMap id (out_disk r1 id) with
        | Some cs => concept cs = existingConcepts (out_disk r1 id)
        | None => True
        end
        /\ match writtenFor topLevelMap codeListMap id (out_disk r1 id) with
           | Some cs => out_disk r1 id = Some cs
           | None => True
           end)
  /\ file_mappings (out_mapping r2) = file_mappings (out_mapping r1)
  /\ totalMappings (out_mapping r2) = totalMappings (out_mapping r1)
  /\ description (out_mapping r2) = description (out_mapping r1)
  /\ generatedAt (out_mapping r2) = now2.
Proof.
  intros r1 r2.
  assert (Hread : forall id,
             match writtenFor topLevelMap codeListMap id (out_disk r1 id) with
             | Some cs => out_disk r1 id = Some cs
             | None => True
             end).
  { intros id. unfold r1. rewrite main_disk.
    destruct (writtenFor topLevelMap codeListMap id (d id)) as [cs|] eqn:Hw.
    - now rewrite (writtenFor_again _ _ _ _ Hw).
    - now rewrite Hw. }
  split; [|split; [|split; [|split; [|split]]]].
  - intros id. unfold r2. rewrite main_disk. specialize (Hread id).
    destruct (writtenFor _ _ id (out_disk r1 id)); congruence.
  - intros id. split; [|apply Hread].
    destruct (builtFor topLevelMap codeListMap id (out_disk r1 id))
      as [cs|] eqn:Hb; [|exact I].
    apply builtFor_concept in Hb. unfold r1 in *.
    now rewrite appendedFor_again, app_nil_r in Hb.
  - unfold r2, r1. now rewrite !main_mappings.
  - unfold r2, r1, main. simpl. now rewrite !fold_processId_mappings.
  - reflexivity.
  - reflexivity.
Qed.

(* ------------------------------------------------------------------ *)
(** ** Winners, provenance and deprecation *)
(* ------------------------------------------------------------------ *)

(** C6, as the code has it. Each derived code has one winner.  Among the
    top-level entries of a derived code the first-seen one is kept, unless
    its display starts with "DEPRECATED" and a later entry has a non-empty
    display that does not: then the first such later entry wins.  Among
    the code-list entries of a derived code, when the first-seen one has
    its deprecated flag set the first later entry with neither flag nor
    marker wins, if there is one; when the first-seen one has neither flag
    nor marker it is kept. *)
Theorem dedup_winner (entries : list TopLevelEntry) (cs : list CodeListCode)
  (b : jsstring) :
  NoDup (map_keys (dedupTopLevel entries))
  /\ NoDup (map_keys (dedupCodeList cs))
  /\ map_get b (dedupTopLevel entries) =
     winnerOf topLevelDeprecated topLevelLive (groupOf topLevelKey b entries)
  /\ match groupOf codeListKey b cs with
     | [] => map_get b (dedupCodeList cs) = None
     | first :: later =>
         if flag (cl_deprecated first) then
           map_get b (dedupCodeList cs) =
           Some match find (fun c => negb (codeListDeprecated c)) later with
                | Some c => c
                | None => first
                end
         else if startsWith DEPRECATED (cl_display first) then True
         else map_get b (dedupCodeList cs) = Some first
     end.
Proof.
  split; [apply dedupTopLevel_NoDup|].
  split; [apply dedupCodeList_NoDup|].
  split; [apply dedupTopLevel_get|].
  rewrite dedupCodeList_get.
  destruct (groupOf codeListKey b cs) as [|first later]; unfold winnerOf;
    [reflexivity|].
  destruct (flag (cl_deprecated first)).
  - destruct (find (fun c => negb (codeListDeprecated c)) later);
      reflexivity.
  - now destruct (startsWith DEPRECATED (cl_display first)).
Qed.

(** C3, as the code has it. A builder pushes one mapping entry for each
    winner of its de-duplication, in the order of the winners: every
    code-list winner, and every top-level winner that has a display.  The
    mapping file holds the entries of all processed ids, sorted. *)
Theorem mapping_per_winner id cl topLevelEntries entries existingCS ms
  topLevelMap codeListMap now d :
  snd (buildFromCodeList id cl topLevelEntries existingCS ms) =
    ms ++ map (fun kv => codeListMapping id cl (fst kv) (snd kv))
            (dedupCodeList (codes cl))
  /\ snd (buildFromTopLevel id entries existingCS ms) =
    ms ++ map (fun kv => topLevelMapping id (fst kv) (snd kv))
            (filter (fun kv => truthy (tl_display (snd kv)))
               (dedupTopLevel entries))
  /\ NoDup (map_keys (dedupCodeList (codes cl)))
  /\ NoDup (map_keys (dedupTopLevel entries))
  /\ Permutation
       (file_mappings (out_mapping (main topLevelMap codeListMap now d)))
       (flat_map (idMappings topLevelMap codeListMap)
          (allIds topLevelMap codeListMap)).
Proof.
  split; [now rewrite buildFromCodeList_spec|].
  split; [now rewrite buildFromTopLevel_spec|].
  split; [apply dedupCodeList_NoDup|].
  split; [apply dedupTopLevel_NoDup|].
  rewrite main_mappings, sortMappings_perm.
  apply Permutation_flat_map, sortIds_perm.
Qed.

Lemma newFromTopLevel_live id existingCS entries :
  Forall (fromLiveTopLevel id entries) (newFromTopLevel id existingCS entries).
Proof.
  unfold newFromTopLevel. apply Forall_map, Forall_forall.
  intros [b e] Hin. apply filter_In in Hin as [Hin Hkeep]. simpl.
  destruct (dedupTopLevel_source _ _ _ Hin) as [Hk He].
  exists e. rewrite Hk. repeat split; try assumption.
  - apply In_map_get; [apply dedupTopLevel_NoDup|assumption].
  - unfold keepTopLevel in Hkeep. simpl in Hkeep.
    now destruct (topLevelDeprecated e).
Qed.

Lemma newFromCodeList_live id existingCS cl :
  Forall (fromLiveCodeList id cl) (newFromCodeList id existingCS cl).
Proof.
  unfold newFromCodeList. apply Forall_map, Forall_forall.
  intros [b x] Hin. apply filter_In in Hin as [Hin Hkeep]. simpl.
  destruct (dedupCodeList_source _ _ _ Hin) as [Hk Hx].
  exists x. rewrite Hk. repeat split; try assumption.
  - apply In_map_get; [apply dedupCodeList_NoDup|assumption].
  - unfold keepCodeList in Hkeep. simpl in Hkeep.
    now destruct (codeListDeprecated x).
Qed.

Lemma map_get_listed {V : Type} (k : jsstring) (v : V) (m : JsMap V) :
  map_get k m = Some v -> In k (map_keys m).
Proof.
  intros H. destruct (in_dec jsstring_eq_dec k (map_keys m)) as [|Hn];
    [assumption|].
  apply map_get_None in Hn. congruence.
Qed.

(** C7, as the code has it. The concepts a run appends to a code system are
    made from winners of the de-duplication that are not deprecated (no
    flag, no "DEPRECATED" at the start of the display); the concepts that
    were in the file before the run stay, whatever the sources now say of
    them.  Every deprecated winner has its entry in the mapping file. *)
Theorem deprecated_excluded topLevelMap codeListMap now d id :
  (forall cs,
     out_disk (main topLevelMap codeListMap now d) id = Some cs ->
     exists appended,
       concept cs = existingConcepts (d id) ++ appended
       /\ Forall (fun c =>
                    (exists entries,
                        map_get id topLevelMap = Some entries
                        /\ fromLiveTopLevel id entries c)
                    \/ (exists cl,
                           map_get id codeListMap = Some cl
                           /\ fromLiveCodeList id cl c))
            appended)
  /\ (forall entries b e,
        map_get id topLevelMap = Some entries ->
        map_get b (dedupTopLevel entries) = Some e ->
        topLevelDeprecated e = true ->
        In (topLevelMapping id b e)
          (file_mappings (out_mapping (main topLevelMap codeListMap now d))))
  /\ (forall cl b x,
        map_get id codeListMap = Some cl ->
        map_get b (dedupCodeList (codes cl)) = Some x ->
        codeListDeprecated x = true ->
        In (codeListMapping id cl b x)
          (file_mappings (out_mapping (main topLevelMap codeListMap now d)))).
Proof.
  split; [|split].
  - intros cs Ho. apply main_concepts in Ho as (appended & Hc & Happ).
    exists appended. split; [assumption|].
    destruct Happ as [->| ->]; [constructor|]. unfold appendedFor.
    destruct (map_get id codeListMap) as [cl|],
             (map_get id topLevelMap) as [entries|].
    + apply Forall_app. split.
      * eapply Forall_impl; [|apply newFromCodeList_live]. eauto.
      * eapply Forall_impl; [|apply newFromTopLevel_live]. eauto.
    + eapply Forall_impl; [|apply newFromCodeList_live]. eauto.
    + eapply Forall_impl; [|apply newFromTopLevel_live]. eauto.
    + constructor.
  - intros entries b e Ht Hw Hd.
    apply main_mappings_In with (id := id).
    + apply allIds_In. left. eapply map_get_listed; eassumption.
    + unfold idMappings. rewrite Ht. apply in_or_app. right.
      unfold topLevelMappings.
      change (topLevelMapping id b e)
        with ((fun kv => topLevelMapping id (fst kv) (snd kv)) (b, e)).
      apply in_map, filter_In. split; [now apply map_get_In|].
      now apply topLevelDeprecated_truthy.
  - intros cl b x Hc Hw Hd.
    apply main_mappings_In with (id := id).
    + apply allIds_In. right. eapply map_get_listed; eassumption.
    + unfold idMappings. rewrite Hc. apply in_or_app. left.
      unfold codeListMappings.
      change (codeListMapping id cl b x)
        with ((fun kv => codeListMapping id cl (fst kv) (snd kv)) (b, x)).
      apply in_map. now apply map_get_In.
Qed.

(** C4, as the code has it. With no code-list and the two entries of the
    code "1", "Wood Frame" and then "DEPRECATED Wood Frame", under an id
    that has no file yet, a run writes one concept, wood-frame / Wood
    Frame, and one mapping entry, that of the kept first entry. *)
Theorem wood_frame_scenario id now d :
  d id = None ->
  let r := main [(id, woodFrameEntries)] [] now d in
  option_map (@concept) (out_disk r id) =
    Some [ mkBindConcept (str "wood-frame") (str "Wood Frame")
             (generateDefinition (str "Wood Frame") (toTitle id)) None ]
  /\ file_mappings (out_mapping r) =
    [ mkMappingEntry (str "wood-frame") (str "1") (id ++ str ".json") id ].
Proof.
  intros Hd r. unfold r.
  assert (Hdedup : dedupTopLevel woodFrameEntries =
                   [(str "wood-frame",
                     mkTopLevelEntry (str "1") (Some (str "Wood Frame")))])
    by reflexivity.
  split.
  - rewrite main_disk, Hd. unfold writtenFor, builtFor.
    rewrite buildForId_eq. cbn [map_get]. rewrite streq_refl.
    cbn [option_map fst]. rewrite concept_mergeOrCreate.
    unfold newFromTopLevel. rewrite Hdedup. reflexivity.
  - rewrite main_mappings. unfold allIds, idMappings.
    cbn [map_keys map app fst fold_left set_add set_has existsb sortIds
         insertId flat_map map_get].
    rewrite streq_refl. unfold topLevelMappings. rewrite Hdedup. reflexivity.
Qed.

(* ------------------------------------------------------------------ *)
(** ** The prefix-stripping loop *)
(* ------------------------------------------------------------------ *)

Lemma startsWith_app (p s : jsstring) :
  startsWith p s = true -> s = p ++ skipn (List.length p) s.
Proof.
  revert s; induction p as [|x p IH]; intros [|y s] H; simpl in *;
    try reflexivity; try discriminate.
  apply andb_true_iff in H as [Hxy Hp].
  apply N.eqb_eq in Hxy; subst y. f_equal. now apply IH.
Qed.

Lemma dropKnownPrefix_shorter (result : jsstring) :
  hasKnownPrefix result = true ->
  (List.length (dropKnownPrefix result) < List.length result)%nat.
Proof.
  unfold hasKnownPrefix, dropKnownPrefix. intros H.
  destruct (startsWith CSIO result) eqn:Hc.
  - apply startsWith_app in Hc. rewrite Hc at 2.
    rewrite length_app. change (List.length CSIO) with 5%nat. simpl; lia.
  - cbn [orb] in H. rewrite H. apply startsWith_app in H. rewrite H at 2.
    rewrite length_app. change (List.length ACORD) with 6%nat. simpl; lia.
Qed.

Lemma stripPrefix_eq (code : jsstring) :
  stripPrefix code =
  if hasKnownPrefix code then stripPrefix (dropKnownPrefix code) else code.
Proof.
  funelim (stripPrefix code).
  - rewrite Hcond. reflexivity.
  - rewrite e. reflexivity.
Qed.

Lemma stripPrefix_fuel_enough (fuel : nat) (code : jsstring) :
  (List.length code < fuel)%nat ->
  stripPrefix_fuel fuel code = Some (stripPrefix code).
Proof.
  revert code; induction fuel as [|fuel IH]; intros code Hlen; [lia|].
  simpl. rewrite stripPrefix_eq. unfold stripPrefix_step.
  destruct (hasKnownPrefix code) eqn:Hcond; [|reflexivity].
  apply IH. apply dropKnownPrefix_shorter in Hcond. lia.
Qed.

Lemma stripPrefix_no_prefix (code : jsstring) :
  hasKnownPrefix (stripPrefix code) = false.
Proof.
  funelim (stripPrefix code); assumption.
Qed.

Lemma stripPrefix_step_removes (code : jsstring) :
  match stripPrefix_step code with
  | Some code' => code = CSIO ++ code' \/ code = ACORD ++ code'
  | None => True
  end.
Proof.
  unfold stripPrefix_step, hasKnownPrefix, dropKnownPrefix.
  destruct (startsWith CSIO code) eqn:Hc; cbn [orb].
  - left. now apply startsWith_app in Hc.
  - destruct (startsWith ACORD code) eqn:Ha; [|exact I].
    right. now apply startsWith_app in Ha.
Qed.

(** C10. The prefix-stripping loop terminates on every input: a turn of the
    loop that continues removes one leading "csio:" or "acord:", and run
    with one more test than the code has code units the loop exits, with
    the value of [stripPrefix], on which no known prefix is left. *)
Theorem stripPrefix_terminates (code : jsstring) :
  match stripPrefix_step code with
  | Some code' => code = CSIO ++ code' \/ code = ACORD ++ code'
  | None => True
  end
  /\ stripPrefix_fuel (S (List.length code)) code = Some (stripPrefix code)
  /\ hasKnownPrefix (stripPrefix code) = false.
Proof.
  split; [apply stripPrefix_step_removes|].
  split; [apply stripPrefix_fuel_enough; lia|apply stripPrefix_no_prefix].
Qed.

(* ------------------------------------------------------------------ *)
(** ** Code derivation *)
(* ------------------------------------------------------------------ *)

(** C9. The three derivation vectors: a prefixed alphabetic code is used
    verbatim, a numeric code takes the slug of its display, and a numeric
    code with an empty display stays the numeric remainder. *)
Theorem derive_vectors :
  deriveBINDCode (str "csio:AUTO") (Some (str "Automobile"))
    = str "AUTO"
  /\ deriveBINDCode (str "047") (Some (str "Fire & Theft"))
    = str "fire-and-theft"
  /\ deriveBINDCode (str "acord:0") (Some EMPTY)
    = str "0".
Proof. repeat split; reflexivity. Qed.

(** A display that slugs to nothing also falls back to the numeric code. *)
Example derive_empty_slug :
  deriveBINDCode (str "acord:0") (Some (str "!?")) = str "0".
Proof. reflexivity. Qed.

(* ------------------------------------------------------------------ *)
(** ** More on prefixes and derived codes *)
(* ------------------------------------------------------------------ *)

Lemma stripPrefix_fixed (code : jsstring) :
  hasKnownPrefix code = false -> stripPrefix code = code.
Proof. intros H. rewrite stripPrefix_eq. now rewrite H. Qed.

Lemma stripPrefix_CSIO (code : jsstring) :
  stripPrefix (CSIO ++ code) = stripPrefix code.
Proof. now rewrite stripPrefix_eq. Qed.

Lemma stripPrefix_ACORD (code : jsstring) :
  stripPrefix (ACORD ++ code) = stripPrefix code.
Proof. now rewrite stripPrefix_eq. Qed.

(** X1. Stripping is idempotent: a stripped code is left as it is. *)
Theorem stripPrefix_idempotent (code : jsstring) :
  stripPrefix (stripPrefix code) = stripPrefix code.
Proof. apply stripPrefix_fixed, stripPrefix_no_prefix. Qed.

(** X2. The code is its stripped form behind a run of known prefixes, and
    nothing else is removed. *)
Theorem stripPrefix_decomposition (code : jsstring) :
  exists prefixes,
    Forall (fun p => p = CSIO \/ p = ACORD) prefixes
    /\ code = List.concat prefixes ++ stripPrefix code.
Proof.
  remember (List.length code) as n eqn:Hn. revert code Hn.
  induction n as [n IH] using lt_wf_ind. intros code Hn.
  rewrite stripPrefix_eq.
  pose proof (stripPrefix_step_removes code) as Hstep.
  unfold stripPrefix_step in Hstep.
  destruct (hasKnownPrefix code) eqn:Hcond.
  - pose proof (dropKnownPrefix_shorter _ Hcond) as Hlt.
    destruct (IH (List.length (dropKnownPrefix code)) ltac:(lia)
                 (dropKnownPrefix code) eq_refl) as (ps & Hps & Heq).
    destruct Hstep as [Hc|Ha].
    + exists (CSIO :: ps). split; [constructor; auto|].
      cbn [List.concat]. rewrite <- app_assoc, <- Heq. exact Hc.
    + exists (ACORD :: ps). split; [constructor; auto|].
      cbn [List.concat]. rewrite <- app_assoc, <- Heq. exact Ha.
  - exists []. split; [constructor|reflexivity].
Qed.

(** X3. A code derives to the same target code with or without a known
    prefix in front of it. *)
Theorem derive_prefix_invariant (code : jsstring) (d : option jsstring) :
  deriveBINDCode (CSIO ++ code) d = deriveBINDCode code d
  /\ deriveBINDCode (ACORD ++ code) d = deriveBINDCode code d.
Proof.
  unfold deriveBINDCode. now rewrite stripPrefix_CSIO, stripPrefix_ACORD.
Qed.

Lemma isNumericOnly_nonempty (code : jsstring) :
  isNumericOnly code = true -> code <> [].
Proof. destruct code; [discriminate|discriminate]. Qed.

(** X4. The derived code is empty exactly when nothing is left of the source
    code once its prefixes are stripped. *)
Theorem derive_empty_iff (code : jsstring) (d : option jsstring) :
  deriveBINDCode code d = [] <-> stripPrefix code = [].
Proof.
  unfold deriveBINDCode.
  destruct (isNumericOnly (stripPrefix code)) eqn:Hnum; simpl;
    [|reflexivity].
  destruct (truthy d); [|reflexivity].
  apply isNumericOnly_nonempty in Hnum.
  destruct (displayToSlug (cleanDisplay (text d))); [reflexivity|].
  split; [discriminate|congruence].
Qed.

(* ------------------------------------------------------------------ *)
(** ** The shape of a slug *)
(* ------------------------------------------------------------------ *)

(** Decide the comparisons of code units in the goal and the context. *)
Ltac ncases :=
  unfold asciiLower, asciiUpper, isSlugChar in *;
  unfold isLowerAZ, isUpperAZ, isDigit, isAscii, isWhiteSpace, HYPHEN,
    SPACE in *;
  repeat match goal with
    | H : context [(?a <=? ?b)] |- _ => destruct (N.leb_spec a b); try lia
    | H : context [(?a <? ?b)] |- _ => destruct (N.ltb_spec a b); try lia
    | H : context [(?a =? ?b)] |- _ => destruct (N.eqb_spec a b); try lia
    | |- context [(?a <=? ?b)] => destruct (N.leb_spec a b); try lia
    | |- context [(?a <? ?b)] => destruct (N.ltb_spec a b); try lia
    | |- context [(?a =? ?b)] => destruct (N.eqb_spec a b); try lia
    end;
  simpl in *; try reflexivity; try congruence; try lia.

Lemma replaceRunsFrom_Forall (cls : N -> bool) (rep : jsstring)
  (P Q : N -> Prop) (inRun : bool) (s : jsstring) :
  (forall c, P c -> cls c = false -> Q c) -> Forall Q rep -> Forall P s ->
  Forall Q (replaceRunsFrom cls rep inRun s).
Proof.
  intros Hkeep Hrep Hs. revert inRun.
  induction Hs as [|c s Hc Hs IH]; intros inRun; simpl; [constructor|].
  destruct (cls c) eqn:E.
  - apply Forall_app. split; [destruct inRun; [constructor|assumption]|].
    apply IH.
  - constructor; [now apply Hkeep|apply IH].
Qed.

Lemma collapse_hyphens_head (s : jsstring) :
  startsWithHyphen
    (replaceRunsFrom (fun c => c =? HYPHEN) [HYPHEN] true s) = false.
Proof.
  induction s as [|c s IH]; simpl; [reflexivity|].
  destruct (c =? HYPHEN) eqn:E; simpl; assumption.
Qed.

Lemma collapse_hyphens_single (inRun : bool) (s : jsstring) :
  noDoubleHyphen
    (replaceRunsFrom (fun c => c =? HYPHEN) [HYPHEN] inRun s) = true.
Proof.
  revert inRun; induction s as [|c s IH]; intros inRun; simpl;
    [reflexivity|].
  destruct (c =? HYPHEN) eqn:E.
  - destruct inRun; simpl; [apply IH|].
    now rewrite collapse_hyphens_head, IH.
  - simpl. now rewrite E, IH.
Qed.

Lemma noDoubleHyphen_free (s : jsstring) :
  noDoubleHyphen s = true <-> hyphenFree s.
Proof.
  unfold hyphenFree. induction s as [|x s IH]; simpl.
  - split; [|reflexivity]. intros _ [|? ?] b; discriminate.
  - rewrite andb_true_iff, negb_true_iff, IH. split.
    + intros [Hx Hs] [|y a] b; simpl; intros [= -> E].
      * subst s. simpl in Hx. unfold HYPHEN in Hx. discriminate.
      * now apply (Hs a b).
    + intros H. split.
      * destruct (x =? HYPHEN) eqn:Ex; [|reflexivity].
        destruct s as [|y s]; [reflexivity|]. simpl.
        destruct (y =? HYPHEN) eqn:Ey; [|reflexivity].
        apply N.eqb_eq in Ex, Ey. subst. now destruct (H [] s).
      * intros a b ->. now apply (H (x :: a) b).
Qed.

Lemma hyphenFree_rev (s : jsstring) : hyphenFree s -> hyphenFree (rev s).
Proof.
  unfold hyphenFree. intros H a b E. apply (H (rev b) (rev a)).
  rewrite <- (rev_involutive s), E, rev_app_distr. simpl.
  now rewrite <- !app_assoc.
Qed.

Lemma hyphenFree_tail (x : N) (s : jsstring) :
  hyphenFree (x :: s) -> hyphenFree s.
Proof. unfold hyphenFree. intros H a b ->. now apply (H (x :: a) b). Qed.

Lemma hyphenFree_head (s : jsstring) :
  hyphenFree (HYPHEN :: s) -> startsWithHyphen s = false.
Proof.
  unfold hyphenFree. intros H. destruct s as [|y s]; [reflexivity|]. simpl.
  destruct (y =? HYPHEN) eqn:E; [|reflexivity].
  apply N.eqb_eq in E. subst. now destruct (H [] s).
Qed.

Lemma stripEdgeHyphens_shape (s : jsstring) :
  Forall (fun c => isSlugChar c = true) s -> noDoubleHyphen s = true ->
  slugShape (stripEdgeHyphens s) = true.
Proof.
  intros Hall Hnd. apply noDoubleHyphen_free in Hnd. unfold stripEdgeHyphens.
  set (s1 := match s with
             | c :: r => if c =? HYPHEN then r else s
             | [] => []
             end).
  assert (H1 : Forall (fun c => isSlugChar c = true) s1
               /\ hyphenFree s1 /\ startsWithHyphen s1 = false).
  { unfold s1. destruct s as [|c r]; [repeat split; auto|].
    destruct (c =? HYPHEN) eqn:E.
    - apply N.eqb_eq in E. subst c. inversion Hall; subst.
      repeat split; [assumption|eapply hyphenFree_tail; eassumption|].
      now apply hyphenFree_head.
    - repeat split; assumption. }
  clearbody s1. destruct H1 as (Hall1 & Hfree1 & Hhead1).
  assert (H2 : forall t, Forall (fun c => isSlugChar c = true) t ->
                 hyphenFree t -> startsWithHyphen t = false ->
                 startsWithHyphen (rev t) = false -> slugShape t = true).
  { intros t Ht Hf Hh Hr. unfold slugShape.
    rewrite Hh, Hr. apply noDoubleHyphen_free in Hf. rewrite Hf.
    assert (E : forallb isSlugChar t = true)
      by (apply forallb_forall, Forall_forall; exact Ht).
    now rewrite E. }
  destruct (rev s1) as [|c r] eqn:Hrev.
  - reflexivity.
  - destruct (c =? HYPHEN) eqn:E.
    + apply N.eqb_eq in E. subst c.
      assert (Es1 : s1 = rev r ++ [HYPHEN])
        by (rewrite <- (rev_involutive s1), Hrev; reflexivity).
      apply H2.
      * rewrite Es1 in Hall1. now apply Forall_app in Hall1 as [? _].
      * apply hyphenFree_rev. apply hyphenFree_rev in Hfree1.
        rewrite Hrev in Hfree1. eapply hyphenFree_tail; eassumption.
      * rewrite Es1 in Hhead1. destruct (rev r); [discriminate|assumption].
      * rewrite rev_involutive. apply hyphenFree_rev in Hfree1.
        rewrite Hrev in Hfree1. now apply hyphenFree_head.
    + apply H2; try assumption. now rewrite Hrev.
Qed.

Lemma slug_lowered (s : jsstring) :
  Forall (fun c => (isLowerAZ c || isUpperAZ c || isDigit c
                    || (c =? HYPHEN)) = true) s ->
  toLowerCase s = map asciiLower s
  /\ Forall (fun c => isSlugChar c = true) (map asciiLower s).
Proof.
  intros H. split.
  - unfold toLowerCase.
    assert (E : forallb isAscii s = true).
    { apply forallb_forall. rewrite Forall_forall in H.
      intros c Hc. specialize (H c Hc). clear - H. ncases. }
    now rewrite E.
  - apply Forall_map. eapply Forall_impl; [|exact H].
    intros c Hc. clear - Hc. ncases.
Qed.

Lemma displayToSlug_slug (display : jsstring) :
  slugShape (displayToSlug display) = true.
Proof.
  unfold displayToSlug.
  set (s3 := filter _ _).
  set (s4 := map _ s3).
  assert (H4 : Forall (fun c => (isLowerAZ c || isUpperAZ c || isDigit c
                                 || isWhiteSpace c || (c =? HYPHEN)) = true)
                 s4).
  { unfold s4. apply Forall_map, Forall_forall. intros c _.
    destruct (isLowerAZ c || isUpperAZ c || isDigit c || isWhiteSpace c
              || (c =? HYPHEN)) eqn:E; [exact E|reflexivity]. }
  clearbody s4. clear s3.
  assert (H5 : Forall (fun c => (isLowerAZ c || isUpperAZ c || isDigit c
                                 || (c =? HYPHEN)) = true)
                 (replaceRuns isWhiteSpace [HYPHEN] s4)).
  { unfold replaceRuns. eapply replaceRunsFrom_Forall; [| |exact H4].
    - intros c Hc Hw. simpl in Hc. rewrite Hw in Hc.
      destruct (isLowerAZ c), (isUpperAZ c), (isDigit c), (c =? HYPHEN);
        try reflexivity; discriminate.
    - repeat constructor. }
  destruct (slug_lowered H5) as [-> H6].
  apply stripEdgeHyphens_shape.
  - unfold replaceRuns.
    eapply replaceRunsFrom_Forall with (P := fun c => isSlugChar c = true);
      [auto|repeat constructor|exact H6].
  - apply collapse_hyphens_single.
Qed.

(** X5. A slug is empty or made of lower-case letters and digits joined by
    single hyphens, whatever the display and the case tables of the
    host. *)
Theorem displayToSlug_shape (display : jsstring) :
  slugShape (displayToSlug display) = true.
Proof. apply displayToSlug_slug. Qed.

Lemma slug_no_prefix (s : jsstring) :
  slugShape s = true -> hasKnownPrefix s = false.
Proof. forget_host.
  unfold slugShape. rewrite !andb_true_iff. intros [[[Hall _] _] _].
  rewrite forallb_forall in Hall.
  assert (Hcolon : ~ In 58 s).
  { intros Hin. apply Hall in Hin. discriminate Hin. }
  unfold hasKnownPrefix.
  destruct (startsWith CSIO s) eqn:Hc.
  - apply startsWith_app in Hc. exfalso. apply Hcolon. rewrite Hc.
    apply in_or_app. left. simpl. tauto.
  - destruct (startsWith ACORD s) eqn:Ha; [|reflexivity].
    apply startsWith_app in Ha. exfalso. apply Hcolon. rewrite Ha.
    apply in_or_app. left. simpl. tauto.
Qed.

(** X6. A derived code never starts with a known prefix, so it is its own
    stripped form. *)
Theorem derive_no_prefix (code : jsstring) (d : option jsstring) :
  hasKnownPrefix (deriveBINDCode code d) = false
  /\ stripPrefix (deriveBINDCode code d) = deriveBINDCode code d.
Proof.
  assert (H : hasKnownPrefix (deriveBINDCode code d) = false).
  { unfold deriveBINDCode.
    destruct (isNumericOnly (stripPrefix code) && truthy d);
      [|apply stripPrefix_no_prefix].
    pose proof (displayToSlug_slug (cleanDisplay (text d))) as Hs.
    destruct (displayToSlug (cleanDisplay (text d)));
      [apply stripPrefix_no_prefix|now apply slug_no_prefix]. }
  split; [exact H|now apply stripPrefix_fixed].
Qed.

(** X7. Deriving again from a derived code, with the same display, gives
    the same code. *)
Theorem derive_idempotent (code : jsstring) (d : option jsstring) :
  deriveBINDCode (deriveBINDCode code d) d = deriveBINDCode code d.
Proof.
  assert (Hfix : stripPrefix (deriveBINDCode code d) = deriveBINDCode code d).
  { apply stripPrefix_fixed.
    unfold deriveBINDCode.
    destruct (isNumericOnly (stripPrefix code) && truthy d);
      [|apply stripPrefix_no_prefix].
    pose proof (displayToSlug_slug (cleanDisplay (text d))) as Hs.
    destruct (displayToSlug (cleanDisplay (text d)));
      [apply stripPrefix_no_prefix|now apply slug_no_prefix]. }
  unfold deriveBINDCode at 1. rewrite Hfix. unfold deriveBINDCode.
  destruct (isNumericOnly (stripPrefix code) && truthy d) eqn:Hc.
  - destruct (displayToSlug (cleanDisplay (text d))) as [|x xs] eqn:Hs.
    + now rewrite Hc.
    + now destruct (isNumericOnly (x :: xs) && truthy d).
  - now rewrite Hc.
Qed.

(* ------------------------------------------------------------------ *)
(** ** Cleaned displays *)
(* ------------------------------------------------------------------ *)

Lemma dropWhile_head (p : N -> bool) (s : jsstring) :
  match dropWhile p s with
  | c :: _ => p c = false
  | [] => True
  end.
Proof.
  induction s as [|c s IH]; simpl; [exact I|].
  destruct (p c) eqn:E; [exact IH|exact E].
Qed.

Lemma dropWhile_app_stop (p : N -> bool) (l r : jsstring) (c : N) :
  p c = false -> dropWhile p (l ++ c :: r) = dropWhile p l ++ c :: r.
Proof.
  intros Hc. induction l as [|x l IH]; simpl; [now rewrite Hc|].
  destruct (p x); [exact IH|reflexivity].
Qed.

Lemma trim_edges (s : jsstring) :
  startsWithSpace (trim s) = false /\ startsWithSpace (rev (trim s)) = false.
Proof.
  unfold trim. split.
  - pose proof (dropWhile_head isWhiteSpace s) as Hh.
    destruct (dropWhile isWhiteSpace s) as [|c t]; [reflexivity|].
    simpl rev. rewrite dropWhile_app_stop by exact Hh. rewrite rev_app_distr.
    simpl. exact Hh.
  - rewrite rev_involutive.
    pose proof (dropWhile_head isWhiteSpace
                  (rev (dropWhile isWhiteSpace s))) as Hh.
    destruct (dropWhile isWhiteSpace (rev (dropWhile isWhiteSpace s)));
      [reflexivity|exact Hh].
Qed.

Lemma trim_fixed (s : jsstring) :
  startsWithSpace s = false -> startsWithSpace (rev s) = false ->
  trim s = s.
Proof.
  intros Hh Hl. unfold trim.
  assert (E1 : dropWhile isWhiteSpace s = s).
  { destruct s as [|c t]; [reflexivity|]. simpl in *. now rewrite Hh. }
  rewrite E1.
  assert (E2 : dropWhile isWhiteSpace (rev s) = rev s).
  { destruct (rev s) as [|c t]; [reflexivity|]. simpl in *. now rewrite Hl. }
  rewrite E2. apply rev_involutive.
Qed.

(** X8. A cleaned display has no white space at either end. *)
Theorem cleanDisplay_trimmed (display : jsstring) :
  startsWithSpace (cleanDisplay display) = false
  /\ startsWithSpace (rev (cleanDisplay display)) = false.
Proof. apply trim_edges. Qed.

(** X9. A display that carries neither marker, in any case, and has no
    white space at its ends is its own cleaned form. *)
Theorem cleanDisplay_unmarked (display : jsstring) :
  startsWithCI DEPRECATED display = false ->
  startsWithCI DESUET display = false ->
  startsWithSpace display = false ->
  startsWithSpace (rev display) = false ->
  cleanDisplay display = display.
Proof.
  intros Hd Hf Hh Hl. unfold cleanDisplay, stripMarker.
  rewrite Hd, Hf. now apply trim_fixed.
Qed.

(* ------------------------------------------------------------------ *)
(** ** Order of the winners *)
(* ------------------------------------------------------------------ *)

Lemma streq_sym (a b : jsstring) : streq a b = streq b a.
Proof.
  destruct (streq b a) eqn:E.
  - apply streq_eq in E. subst. apply streq_refl.
  - apply streq_neq. apply streq_false in E. congruence.
Qed.

Lemma map_keys_map_set {V : Type} (k : jsstring) (v : V) (m : JsMap V) :
  map_keys (map_set k v m) = set_add k (map_keys m).
Proof.
  unfold set_add, set_has.
  induction m as [|[k' v'] m IH]; simpl; [reflexivity|].
  rewrite (streq_sym k k').
  destruct (streq k' k); simpl; [reflexivity|].
  rewrite IH. now destruct (existsb (streq k) (map_keys m)).
Qed.

Lemma dedupStepWith_keys {E : Type} (key : E -> jsstring)
  (repl : E -> E -> bool) (m : JsMap E) (e : E) :
  map_keys (dedupStepWith key repl m e) = set_add (key e) (map_keys m).
Proof.
  unfold dedupStepWith.
  destruct (map_get (key e) m) as [w|] eqn:G;
    [destruct (repl w e)|]; try apply map_keys_map_set.
  unfold set_add.
  assert (Hhas : set_has (key e) (map_keys m) = true).
  { apply set_has_In. eapply map_get_listed. eassumption. }
  now rewrite Hhas.
Qed.

Lemma dedup_keys {E : Type} (key : E -> jsstring) (repl : E -> E -> bool)
  (l : list E) (m : JsMap E) :
  map_keys (fold_left (dedupStepWith key repl) l m) =
  fold_left (fun s k => set_add k s) (map key l) (map_keys m).
Proof.
  revert m; induction l as [|e l IH]; intros m; simpl; [reflexivity|].
  now rewrite IH, dedupStepWith_keys.
Qed.

(** X10. The winners of a source are held in the order in which their
    derived codes first occur in it, a later winner of a code taking the
    place of the first one; new concepts follow that order. *)
Theorem dedup_key_order (entries : list TopLevelEntry)
  (cs : list CodeListCode) :
  map_keys (dedupTopLevel entries) =
    firstOccurrences (map topLevelKey entries)
  /\ map_keys (dedupCodeList cs) = firstOccurrences (map codeListKey cs).
Proof.
  rewrite dedupTopLevel_scheme, dedupCodeList_scheme, !dedup_keys.
  split; reflexivity.
Qed.

(* ------------------------------------------------------------------ *)
(** ** What a run leaves alone *)
(* ------------------------------------------------------------------ *)

Lemma sameHeader_refl (cs : BindCodeSystem) : sameHeader cs cs.
Proof.
  unfold sameHeader. repeat split. destruct (cs_language cs); auto.
Qed.

Lemma mergeOrCreate_header id cs0 new :
  sameHeader cs0 (mergeOrCreate id (Some cs0) new)
  /\ cs_language (mergeOrCreate id (Some cs0) new) <> None.
Proof.
  unfold sameHeader. simpl. repeat split; try discriminate.
  destruct (cs_language cs0); auto.
Qed.

Lemma sameHeader_trans cs0 cs1 cs2 :
  sameHeader cs0 cs1 -> sameHeader cs1 cs2 -> sameHeader cs0 cs2.
Proof.
  unfold sameHeader.
  intros (H1 & H2 & H3 & H4 & H5 & H6 & H7)
         (G1 & G2 & G3 & G4 & G5 & G6 & G7).
  repeat split; try congruence.
  destruct (cs_language cs0) as [l|].
  - rewrite H7 in G7. exact G7.
  - destruct H7 as [H7|H7]; rewrite H7 in G7; auto.
Qed.

Lemma builtFor_header topLevelMap codeListMap id cs0 cs :
  builtFor topLevelMap codeListMap id (Some cs0) = Some cs ->
  sameHeader cs0 cs.
Proof.
  unfold builtFor. rewrite buildForId_eq.
  destruct (map_get id codeListMap), (map_get id topLevelMap);
    cbn [option_map fst]; try discriminate; some_inv.
  - eapply sameHeader_trans; apply mergeOrCreate_header.
  - apply mergeOrCreate_header.
  - apply mergeOrCreate_header.
Qed.

(** X11. A run leaves the id, url, name, title, status and description of a
    code system it finds on disk as they are, and its language too when it
    has one; a missing language stays missing or becomes "en". *)
Theorem run_keeps_header topLevelMap codeListMap now d id cs0 :
  d id = Some cs0 ->
  exists cs1,
    out_disk (main topLevelMap codeListMap now d) id = Some cs1
    /\ sameHeader cs0 cs1.
Proof.
  intros Hd. rewrite main_disk, Hd.
  destruct (writtenFor topLevelMap codeListMap id (Some cs0)) as [cs|] eqn:Hw.
  - exists cs. split; [reflexivity|].
    eapply builtFor_header, writtenFor_builtFor. eassumption.
  - exists cs0. split; [reflexivity|apply sameHeader_refl].
Qed.

(** X12. The file of an id that is a key of neither source map is what it
    was before the run. *)
Theorem run_leaves_unlisted topLevelMap codeListMap now d id :
  ~ In id (map_keys topLevelMap) -> ~ In id (map_keys codeListMap) ->
  out_disk (main topLevelMap codeListMap now d) id = d id.
Proof.
  intros Ht Hc. rewrite main_disk. unfold writtenFor.
  rewrite builtFor_unlisted; [reflexivity|].
  rewrite allIds_In. intros [H|H]; auto.
Qed.

(** X13. A run writes no code system without concepts: a file with an empty
    concept list after the run is one the run did not write. *)
Theorem run_writes_no_empty topLevelMap codeListMap now d id cs :
  out_disk (main topLevelMap codeListMap now d) id = Some cs ->
  concept cs = [] ->
  d id = Some cs.
Proof.
  rewrite main_disk. unfold writtenFor.
  destruct (builtFor topLevelMap codeListMap id (d id)) as [cs'|];
    [|auto].
  destruct (concept cs') eqn:Hc; [auto|].
  intros [= <-] He. congruence.
Qed.

(** X14. What a run leaves in the file of an id depends on the sources and
    on that file alone, not on the other files nor on the clock. *)
Theorem run_local topLevelMap codeListMap now now' d d' id :
  d id = d' id ->
  out_disk (main topLevelMap codeListMap now d) id =
  out_disk (main topLevelMap codeListMap now' d') id.
Proof. intros H. now rewrite !main_disk, H. Qed.

(** X15. The mappings of a run, and their number, are those of the sources:
    neither the files on disk nor the clock change them. *)
Theorem mappings_from_sources topLevelMap codeListMap now now' d d' :
  file_mappings (out_mapping (main topLevelMap codeListMap now d)) =
    file_mappings (out_mapping (main topLevelMap codeListMap now' d'))
  /\ totalMappings (out_mapping (main topLevelMap codeListMap now d)) =
    totalMappings (out_mapping (main topLevelMap codeListMap now' d')).
Proof.
  split; [now rewrite !main_mappings|].
  unfold main. simpl. now rewrite !fold_processId_mappings.
Qed.

(* ------------------------------------------------------------------ *)
(** ** The summary counts *)
(* ------------------------------------------------------------------ *)

Lemma builtFor_listed topLevelMap codeListMap id existingCS :
  In id (allIds topLevelMap codeListMap) ->
  builtFor topLevelMap codeListMap id existingCS <> None.
Proof.
  rewrite allIds_In. unfold builtFor. rewrite buildForId_eq. intros Hin.
  destruct (map_get id codeListMap) eqn:Hc,
           (map_get id topLevelMap) eqn:Ht; try discriminate.
  apply map_get_None in Hc, Ht. destruct Hin; contradiction.
Qed.

Lemma processId_counts topLevelMap codeListMap st id :
  builtFor topLevelMap codeListMap id (disk st id) <> None ->
  (created (processId topLevelMap codeListMap st id)
   + merged (processId topLevelMap codeListMap st id)
   + skipped (processId topLevelMap codeListMap st id)
   = S (created st + merged st + skipped st))%nat.
Proof.
  unfold processId. rewrite buildForId_split.
  destruct (builtFor _ _ _ _) as [cs|]; [intros _|congruence].
  destruct (concept cs); [simpl; lia|].
  destruct (disk st id); simpl; lia.
Qed.

Lemma fold_processId_counts topLevelMap codeListMap ids st :
  (forall id, In id ids -> In id (allIds topLevelMap codeListMap)) ->
  let st' := fold_left (processId topLevelMap codeListMap) ids st in
  (created st' + merged st' + skipped st'
   = created st + merged st + skipped st + List.length ids)%nat.
Proof.
  revert st; induction ids as [|id ids IH]; intros st Hin; simpl; [lia|].
  rewrite IH by (intros x Hx; apply Hin; now right).
  rewrite processId_counts; [lia|].
  apply builtFor_listed, Hin. now left.
Qed.

(** X16. Every id that is a key of a source map is counted once in the
    summary, as created, merged or skipped. *)
Theorem run_counts_every_id topLevelMap codeListMap now d :
  let r := main topLevelMap codeListMap now d in
  (out_created r + out_merged r + out_skipped r
   = List.length (allIds topLevelMap codeListMap))%nat.
Proof.
  unfold main. cbn [out_created out_merged out_skipped].
  rewrite fold_processId_counts.
  - simpl. apply Permutation_length, sortIds_perm.
  - intros id. apply Permutation_in, sortIds_perm.
Qed.

Lemma main_settled topLevelMap codeListMap now d :
  settled topLevelMap codeListMap
    (out_disk (main topLevelMap codeListMap now d)).
Proof.
  intros id. rewrite main_disk.
  destruct (writtenFor topLevelMap codeListMap id (d id)) as [cs|] eqn:Hw.
  - now rewrite (writtenFor_again _ _ _ _ Hw).
  - now rewrite Hw.
Qed.

Lemma processId_settled topLevelMap codeListMap st id :
  settled topLevelMap codeListMap (disk st) ->
  (forall id', disk (processId topLevelMap codeListMap st id) id'
               = disk st id')
  /\ created (processId topLevelMap codeListMap st id) = created st.
Proof.
  intros Hs. split.
  - intros id'. rewrite processId_disk. specialize (Hs id).
    destruct (streq id id') eqn:E; [|reflexivity].
    apply streq_eq in E. subst id'.
    destruct (writtenFor topLevelMap codeListMap id (disk st id));
      congruence.
  - specialize (Hs id). unfold writtenFor in Hs. unfold processId.
    rewrite buildForId_split.
    destruct (builtFor topLevelMap codeListMap id (disk st id)) as [cs|];
      [|reflexivity].
    destruct (concept cs); [reflexivity|].
    now rewrite Hs.
Qed.

Lemma fold_processId_settled topLevelMap codeListMap ids st :
  settled topLevelMap codeListMap (disk st) ->
  created (fold_left (processId topLevelMap codeListMap) ids st)
  = created st.
Proof.
  revert st; induction ids as [|id ids IH]; intros st Hs; simpl;
    [reflexivity|].
  destruct (@processId_settled topLevelMap codeListMap st id Hs)
    as [Hd Hc].
  rewrite IH; [exact Hc|].
  intros id'. rewrite Hd. apply Hs.
Qed.

(** X17. A second run over the same sources creates no file: whatever it
    writes, it counts as merged. *)
Theorem rerun_creates_nothing topLevelMap codeListMap now1 now2 d :
  let r1 := main topLevelMap codeListMap now1 d in
  out_created (main topLevelMap codeListMap now2 (out_disk r1)) = 0%nat.
Proof.
  intros r1. unfold main at 1. cbn [out_created].
  rewrite fold_processId_settled; [reflexivity|].
  apply main_settled.
Qed.

(* ------------------------------------------------------------------ *)
(** ** The enricher *)
(* ------------------------------------------------------------------ *)

Lemma frenchDesignation_some (fr : option jsstring) (d : list Designation) :
  frenchDesignation fr = Some d -> exists x, d = [x].
Proof.
  unfold frenchDesignation. destruct (truthy fr); [|discriminate].
  destruct (cleanDisplay (text fr)); [discriminate|].
  intros [= <-]. eauto.
Qed.

Lemma enrichConcept_designated (cl : CodeListFile) (c : BindConcept) :
  hasDesignation c = true -> enrichConcept cl c = c.
Proof. intros H. unfold enrichConcept. now rewrite H. Qed.

Lemma enrichConcept_again (cl : CodeListFile) (c : BindConcept) :
  enrichConcept cl (enrichConcept cl c) = enrichConcept cl c.
Proof.
  destruct (hasDesignation c) eqn:Hh.
  - now rewrite !(enrichConcept_designated cl c Hh).
  - assert (Hcases : enrichConcept cl c = c
                     \/ hasDesignation (enrichConcept cl c) = true).
    { unfold enrichConcept. rewrite Hh.
      destruct (match map_get (code c) (codeLookup cl) with
                | Some x => Some x
                | None =>
                    map_get (toLowerCase (display c)) (displayLookup cl)
                end) as [x|]; [|now left].
      destruct (frenchDesignation (cl_display_fr x)) as [d|] eqn:Hf;
        [|now left].
      right. apply frenchDesignation_some in Hf as [y ->]. reflexivity. }
    destruct Hcases as [E|E].
    + now rewrite E.
    + now apply enrichConcept_designated.
Qed.

(** X18. The enricher leaves the fields of the code system and the code,
    display and definition of every concept as they are, keeps the concepts
    in place, and returns a concept that has a designation unchanged. *)
Theorem enrich_frame (cs : BindCodeSystem) (cl : CodeListFile) :
  let cs' := enrichWithCodeList cs cl in
  cs_id cs' = cs_id cs /\ cs_url cs' = cs_url cs
  /\ cs_name cs' = cs_name cs /\ cs_title cs' = cs_title cs
  /\ cs_status cs' = cs_status cs /\ cs_language cs' = cs_language cs
  /\ cs_description cs' = cs_description cs
  /\ Forall2 (fun c c' =>
                code c' = code c /\ display c' = display c
                /\ definition c' = definition c
                /\ (hasDesignation c = true -> c' = c))
       (concept cs) (concept cs').
Proof.
  simpl. repeat split.
  induction (concept cs) as [|c l IH]; simpl; constructor; [|exact IH].
  pose proof (enrichWithCodeList_preserves
                (mkBindCodeSystem [] [] [] [] draft None [] [c]) cl) as H.
  simpl in H. inversion H as [|? ? ? ? (H1 & H2 & H3 & _) _]; subst.
  repeat split; try assumption. apply enrichConcept_designated.
Qed.

(** X19. Enriching twice with the same code-list is enriching once. *)
Theorem enrich_idempotent (cs : BindCodeSystem) (cl : CodeListFile) :
  enrichWithCodeList (enrichWithCodeList cs cl) cl = enrichWithCodeList cs cl.
Proof.
  unfold enrichWithCodeList. simpl. f_equal.
  rewrite map_map. apply map_ext. intros c. apply enrichConcept_again.
Qed.

Lemma lookup_fold_last (g : CodeListCode -> bool)
  (f : CodeListCode -> jsstring) (k : jsstring) (l : list CodeListCode) :
  map_get k (fold_left (fun m c => if g c then map_set (f c) c m else m) l [])
  = find (fun c => g c && streq (f c) k) (rev l).
Proof.
  induction l as [|c l IH] using rev_ind; [reflexivity|].
  rewrite fold_left_app, rev_app_distr. simpl.
  destruct (g c); simpl; [|exact IH].
  destruct (streq (f c) k) eqn:E.
  - apply streq_eq in E. subst k. apply map_get_set_same.
  - rewrite map_get_set_other; [exact IH|].
    apply streq_false in E. congruence.
Qed.

(** X20. Of several code-list entries with the same code, or with the same
    cleaned lower-case display, the lookups of the enricher hold the last
    one; an entry with an empty display is in no display lookup. *)
Theorem enrich_lookups_last (cl : CodeListFile) (k : jsstring) :
  map_get k (codeLookup cl)
  = find (fun c => streq (cl_code c) k) (rev (codes cl))
  /\ map_get k (displayLookup cl)
  = find (fun c => truthy (Some (cl_display c))
                   && streq (toLowerCase (cleanDisplay (cl_display c))) k)
      (rev (codes cl)).
Proof.
  split.
  - unfold codeLookup.
    exact (lookup_fold_last (fun _ => true) cl_code k (codes cl)).
  - unfold displayLookup. apply lookup_fold_last.
Qed.

Lemma lookup_fold_In (g : CodeListCode -> bool)
  (f : CodeListCode -> jsstring) (k : jsstring) (l : list CodeListCode)
  (x : CodeListCode) :
  map_get k (fold_left (fun m c => if g c then map_set (f c) c m else m) l [])
  = Some x -> In x l.
Proof.
  rewrite lookup_fold_last. intros H. apply find_some in H as [H _].
  now apply in_rev.
Qed.

(** X21. A code-list in which no entry has a French display gives no
    designation: the concepts come back as they were. *)
Theorem enrich_without_french (cs : BindCodeSystem) (cl : CodeListFile) :
  (forall x, In x (codes cl) -> truthy (cl_display_fr x) = false) ->
  concept (enrichWithCodeList cs cl) = concept cs.
Proof.
  intros Hno. simpl. rewrite <- (map_id (concept cs)) at 2.
  apply map_ext. intros c. unfold enrichConcept.
  destruct (hasDesignation c); [reflexivity|].
  destruct (map_get (code c) (codeLookup cl)) as [x|] eqn:Hc.
  - apply (lookup_fold_In (fun _ => true)) in Hc.
    unfold frenchDesignation. now rewrite (Hno x Hc).
  - destruct (map_get (toLowerCase (display c)) (displayLookup cl))
      as [x|] eqn:Hd; [|reflexivity].
    apply lookup_fold_In in Hd.
    unfold frenchDesignation. now rewrite (Hno x Hd).
Qed.

(* ------------------------------------------------------------------ *)
(** ** The gitignore entry *)
(* ------------------------------------------------------------------ *)

Lemma startsWith_prefix (p s : jsstring) : startsWith p (p ++ s) = true.
Proof.
  induction p as [|x p IH]; simpl; [reflexivity|].
  now rewrite N.eqb_refl, IH.
Qed.

Lemma includes_middle (pat a b : jsstring) :
  includes pat (a ++ pat ++ b) = true.
Proof.
  induction a as [|x a IH]; simpl.
  - assert (E : forall s, includes pat s = true \/ startsWith pat s = false)
      by (intros [|y s]; simpl; destruct (startsWith pat _); auto).
    destruct (E (pat ++ b)) as [H|H]; [exact H|].
    now rewrite startsWith_prefix in H.
  - rewrite IH. apply orb_true_r.
Qed.

(** X22. After the call the file holds the entry [.mapping/] behind all it
    held before, and a second call changes nothing; a file that holds the
    entry already is left as it is. *)
Theorem gitignore_ensured (gitignore : option jsstring) :
  let after := ensureMappingInGitignore gitignore in
  (exists added, text after = text gitignore ++ added)
  /\ includes MAPPING_DIR_ENTRY (text after) = true
  /\ ensureMappingInGitignore after = after
  /\ (if includes MAPPING_DIR_ENTRY (text gitignore)
      then after = gitignore else True).
Proof.
  unfold ensureMappingInGitignore.
  destruct (includes MAPPING_DIR_ENTRY (text gitignore)) eqn:Hin; simpl.
  - repeat split; [exists []; now rewrite app_nil_r|assumption|].
    now rewrite Hin.
  - set (sep := if endsWith [LF] (text gitignore) then [] else [LF]).
    assert (Hafter : includes MAPPING_DIR_ENTRY
                       (text gitignore ++ sep ++ GITIGNORE_BLOCK) = true).
    { unfold GITIGNORE_BLOCK.
      replace (text gitignore ++ sep ++ [LF]
                 ++ str "# Private source mapping (generated)" ++ [LF]
                 ++ MAPPING_DIR_ENTRY ++ [LF])
        with ((text gitignore ++ sep ++ [LF]
                 ++ str "# Private source mapping (generated)" ++ [LF])
                ++ MAPPING_DIR_ENTRY ++ [LF])
        by (now rewrite <- !app_assoc).
      apply includes_middle. }
    repeat split; [eauto|assumption|].
    now rewrite Hafter.
Qed.

(* ------------------------------------------------------------------ *)
(** ** Kebab-case names *)
(* ------------------------------------------------------------------ *)

Lemma hyphenateLowerUpper_plain (s : jsstring) :
  Forall (fun c => isUpperAZ c = false) s -> hyphenateLowerUpper s = s.
Proof.
  induction s as [|a t IH]; intros H; [reflexivity|].
  inversion H as [|? ? Ha Ht]; subst. simpl.
  destruct t as [|b r]; [reflexivity|].
  inversion Ht as [|? ? Hb _]; subst.
  rewrite Hb, andb_false_r. f_equal. now apply IH.
Qed.

Lemma hyphenateAcronym_plain (s : jsstring) :
  Forall (fun c => isUpperAZ c = false) s -> hyphenateAcronymFrom 0 s = s.
Proof.
  induction 1 as [|c s Hc Hs IH]; simpl; [reflexivity|].
  rewrite Hc. now f_equal.
Qed.

Lemma replaceRuns_plain (cls : N -> bool) (rep s : jsstring) :
  Forall (fun c => cls c = false) s -> replaceRuns cls rep s = s.
Proof.
  unfold replaceRuns. intros H. generalize false.
  induction H as [|c s Hc Hs IH]; intros b; simpl; [reflexivity|].
  rewrite Hc. f_equal. apply IH.
Qed.

(** X23. A name made of lower-case letters, digits and hyphens is its own
    kebab-case form. *)
Theorem toKebabCase_kebab (name : jsstring) :
  forallb isSlugChar name = true -> toKebabCase name = name.
Proof.
  intros H. rewrite forallb_forall in H. unfold toKebabCase.
  assert (Hup : Forall (fun c => isUpperAZ c = false) name).
  { apply Forall_forall. intros c Hc. specialize (H c Hc).
    clear - H. ncases. }
  assert (Hws : Forall (fun c => isWhiteSpace c || (c =? 95) = false) name).
  { apply Forall_forall. intros c Hc. specialize (H c Hc).
    clear - H. ncases. }
  rewrite (hyphenateLowerUpper_plain Hup), (hyphenateAcronym_plain Hup).
  rewrite replaceRuns_plain by exact Hws.
  unfold toLowerCase.
  assert (Hascii : forallb isAscii name = true).
  { apply forallb_forall. intros c Hc. specialize (H c Hc).
    clear - H. ncases. }
  rewrite Hascii. rewrite <- (map_id name) at 2. apply map_ext_in.
  intros c Hc. rewrite Forall_forall in Hup. unfold asciiLower.
  now rewrite (Hup c Hc).
Qed.

(* ------------------------------------------------------------------ *)
(** ** Provenance against sources and concepts *)
(* ------------------------------------------------------------------ *)

Lemma main_mappings_inv topLevelMap codeListMap now d m :
  In m (file_mappings (out_mapping (main topLevelMap codeListMap now d))) ->
  exists id, In m (idMappings topLevelMap codeListMap id).
Proof.
  rewrite main_mappings. intros H.
  apply (Permutation_in _ (sortMappings_perm _)) in H.
  apply in_flat_map in H as (id & _ & H). eauto.
Qed.

(** X24. Every entry of the mapping file comes from an entry of the source
    named by its [codeSystemId]: it carries the code of that entry as
    [sourceCode], the code derived from it as [bindCode], and the file name
    of its source. *)
Theorem mapping_sound topLevelMap codeListMap now d m :
  In m (file_mappings (out_mapping (main topLevelMap codeListMap now d))) ->
  (exists entries e,
      map_get (codeSystemId m) topLevelMap = Some entries
      /\ In e entries
      /\ sourceCode m = tl_code e
      /\ bindCode m = deriveBINDCode (tl_code e) (tl_display e)
      /\ sourceFile m = codeSystemId m ++ str ".json")
  \/ (exists cl x,
         map_get (codeSystemId m) codeListMap = Some cl
         /\ In x (codes cl)
         /\ sourceCode m = cl_code x
         /\ bindCode m = deriveBINDCode (cl_code x) (Some (cl_display x))
         /\ sourceFile m =
            str "code-lists/" ++ toKebabCase (code_list_name cl)
              ++ str ".json").
Proof.
  intros H. apply main_mappings_inv in H as (id & H).
  unfold idMappings in H. apply in_app_or in H as [H|H].
  - right. destruct (map_get id codeListMap) as [cl|] eqn:Hc; [|destruct H].
    unfold codeListMappings in H.
    apply in_map_iff in H as ([b x] & <- & Hin).
    apply dedupCodeList_source in Hin as [Hk Hx]. simpl.
    exists cl, x. rewrite Hc. repeat split; auto.
  - left. destruct (map_get id topLevelMap) as [entries|] eqn:Ht;
      [|destruct H].
    unfold topLevelMappings in H.
    apply in_map_iff in H as ([b e] & <- & Hin).
    apply filter_In in Hin as [Hin _].
    apply dedupTopLevel_source in Hin as [Hk He]. simpl.
    exists entries, e. rewrite Ht. repeat split; auto.
Qed.

Lemma newFromTopLevel_recorded id existingCS entries c :
  In c (newFromTopLevel id existingCS entries) ->
  exists m, In m (topLevelMappings id entries)
            /\ bindCode m = code c /\ codeSystemId m = id.
Proof.
  unfold newFromTopLevel, topLevelMappings. intros H.
  apply in_map_iff in H as ([b e] & <- & Hin).
  apply filter_In in Hin as [Hin Hkeep].
  exists (topLevelMapping id b e). repeat split.
  change (topLevelMapping id b e)
    with ((fun kv => topLevelMapping id (fst kv) (snd kv)) (b, e)).
  apply in_map, filter_In. split; [assumption|].
  unfold keepTopLevel in Hkeep. unfold recordedTopLevel.
  apply andb_true_iff in Hkeep as [Hkeep _].
  now apply andb_true_iff in Hkeep as [_ Hkeep].
Qed.

Lemma newFromCodeList_recorded id existingCS cl c :
  In c (newFromCodeList id existingCS cl) ->
  exists m, In m (codeListMappings id cl)
            /\ bindCode m = code c /\ codeSystemId m = id.
Proof.
  unfold newFromCodeList, codeListMappings. intros H.
  apply in_map_iff in H as ([b x] & <- & Hin).
  apply filter_In in Hin as [Hin _].
  exists (codeListMapping id cl b x). repeat split.
  change (codeListMapping id cl b x)
    with ((fun kv => codeListMapping id cl (fst kv) (snd kv)) (b, x)).
  now apply in_map.
Qed.

(** X25. Every concept a run appends to a code system has an entry in the
    mapping file of that run, under its code and the id of the code
    system. *)
Theorem appended_are_mapped topLevelMap codeListMap now d id cs :
  out_disk (main topLevelMap codeListMap now d) id = Some cs ->
  exists appended,
    concept cs = existingConcepts (d id) ++ appended
    /\ Forall (fun c =>
                 exists m,
                   In m (file_mappings
                           (out_mapping
                              (main topLevelMap codeListMap now d)))
                   /\ bindCode m = code c /\ codeSystemId m = id)
         appended.
Proof.
  intros Ho. apply main_concepts in Ho as (appended & Hc & Happ).
  exists appended. split; [assumption|].
  destruct Happ as [->| ->]; [constructor|].
  apply Forall_forall. intros c Hin. unfold appendedFor in Hin.
  assert (Hgo : forall m, In m (idMappings topLevelMap codeListMap id) ->
                  (map_get id codeListMap <> None
                   \/ map_get id topLevelMap <> None) ->
                  In m (file_mappings
                          (out_mapping
                             (main topLevelMap codeListMap now d)))).
  { intros m Hm Hkey. apply main_mappings_In with (id := id); [|assumption].
    apply allIds_In.
    destruct Hkey as [Hk|Hk]; [right|left].
    - destruct (map_get id codeListMap) eqn:E; [|congruence].
      eapply map_get_listed; eassumption.
    - destruct (map_get id topLevelMap) eqn:E; [|congruence].
      eapply map_get_listed; eassumption. }
  unfold idMappings in Hgo.
  destruct (map_get id codeListMap) as [cl|] eqn:Hcl,
           (map_get id topLevelMap) as [entries|] eqn:Htl.
  - apply in_app_or in Hin as [Hin|Hin].
    + apply newFromCodeList_recorded in Hin as (m & Hm & Hb & Hi).
      exists m. repeat split; auto.
      apply Hgo; [apply in_or_app; now left|left; discriminate].
    + apply newFromTopLevel_recorded in Hin as (m & Hm & Hb & Hi).
      exists m. repeat split; auto.
      apply Hgo; [apply in_or_app; now right|left; discriminate].
  - apply newFromCodeList_recorded in Hin as (m & Hm & Hb & Hi).
    exists m. repeat split; auto.
    apply Hgo; [apply in_or_app; now left|left; discriminate].
  - apply newFromTopLevel_recorded in Hin as (m & Hm & Hb & Hi).
    exists m. repeat split; auto.
    apply Hgo; [apply in_or_app; now right|right; discriminate].
  - destruct Hin.
Qed.

(** X26. Top-level entries without a display, missing or empty, give neither
    a concept nor a mapping entry: the builder returns the existing code
    system, or a new one without concepts, and the mappings it was
    given. *)
Theorem displayless_entries_add_nothing id entries existingCS ms :
  Forall (fun e => truthy (tl_display e) = false) entries ->
  buildFromTopLevel id entries existingCS ms
  = (mergeOrCreate id existingCS [], ms).
Proof.
  intros Hno. rewrite buildFromTopLevel_spec.
  assert (Hw : forall kv, In kv (dedupTopLevel entries) ->
                 truthy (tl_display (snd kv)) = false).
  { intros [b e] Hin. apply dedupTopLevel_source in Hin as [_ He].
    rewrite Forall_forall in Hno. now apply Hno. }
  rewrite !filter_none; [now rewrite app_nil_r| |].
  - intros kv Hin. unfold recordedTopLevel. now apply Hw.
  - intros kv Hin. unfold keepTopLevel. rewrite (Hw kv Hin).
    now rewrite andb_false_r.
Qed.

End Converter.

(* ------------------------------------------------------------------ *)
(** ** The properties on the sample sources *)
(* ------------------------------------------------------------------ *)

(** C1. Two runs in a row do not leave the same mapping file: the second
    one stamps its own clock reading. *)
Lemma rerun_mapping_file_differs :
  let r1 := main noCaseTable noCaseTable codeUnitCompare
              [(CONSTRUCTION_TYPE, woodFrameEntries)] [] T1 noDisk in
  let r2 := main noCaseTable noCaseTable codeUnitCompare
              [(CONSTRUCTION_TYPE, woodFrameEntries)] [] T2 (out_disk r1) in
  out_mapping r2 <> out_mapping r1.
Proof.
  intros r1 r2 H. apply (f_equal generatedAt) in H.
  vm_compute in H. discriminate H.
Qed.

(** C3. Three entries are examined and one mapping entry is written: the
    duplicate and the entry without display leave none. *)
Lemma mapping_per_entry_fails :
  let r := main noCaseTable noCaseTable codeUnitCompare
             [(LINE_OF_BUSINESS, autoEntries)] [] T1 noDisk in
  List.length (file_mappings (out_mapping r)) <> List.length autoEntries
  /\ map sourceCode (file_mappings (out_mapping r)) = [str "AUTO"].
Proof. split; [vm_compute; discriminate|reflexivity]. Qed.

(** C4. The scenario gives one mapping entry, not two. *)
Lemma wood_frame_two_mappings_fails :
  let r := main noCaseTable noCaseTable codeUnitCompare
             [(CONSTRUCTION_TYPE, woodFrameEntries)] [] T1 noDisk in
  ~ (option_map (fun cs => map (fun c => (code c, display c)) (concept cs))
       (out_disk r CONSTRUCTION_TYPE)
     = Some [(str "wood-frame", str "Wood Frame")]
     /\ List.length (file_mappings (out_mapping r)) = 2%nat).
Proof. intros r [_ H]. vm_compute in H. discriminate H. Qed.

(** The scenario under the id construction-type, on an empty directory. *)
Lemma wood_frame_scenario_witness :
  let r := main noCaseTable noCaseTable codeUnitCompare
             [(CONSTRUCTION_TYPE, woodFrameEntries)] [] T1 noDisk in
  option_map (@concept) (out_disk r CONSTRUCTION_TYPE) =
    Some [ mkBindConcept (str "wood-frame") (str "Wood Frame")
             (str "Wood Frame" ++ [SPACE; 8212; SPACE]
                ++ str "construction type code.") None ]
  /\ file_mappings (out_mapping r) =
    [ mkMappingEntry (str "wood-frame") (str "1")
        (str "construction-type.json") CONSTRUCTION_TYPE ].
Proof.
  exact (wood_frame_scenario noCaseTable noCaseTable codeUnitCompare
           CONSTRUCTION_TYPE T1 noDisk eq_refl).
Defined.

(** C5. On a top-level file and a code-list of the same id, the concept made
    from the top-level entry is written without designation, although the
    enricher, applied to the written code system and that code-list, would
    give it the French display by its code. *)
Theorem enricher_not_run :
  let r := main noCaseTable noCaseTable codeUnitCompare
             lobTopLevel lobCodeLists T1 noDisk in
  exists cs,
    out_disk r LINE_OF_BUSINESS = Some cs
    /\ map (fun c => (code c, designation c)) (concept cs)
       = [(str "AUTO", None)]
    /\ map (fun c => (code c, designation c))
         (concept (enrichWithCodeList noCaseTable cs lobCodeList))
       = [(str "AUTO", Some [mkDesignation FR_CA (str "Automobile (FR)")])].
Proof.
  intros r. eexists. split; [vm_compute; reflexivity|].
  split; reflexivity.
Qed.

(** C6. A later top-level entry that is not marked deprecated, but has no
    display, does not take the place of a deprecated first entry. *)
Lemma later_without_display_loses :
  topLevelKey noCaseTable fireFirst = topLevelKey noCaseTable fireLater
  /\ topLevelDeprecated fireFirst = true
  /\ topLevelDeprecated fireLater = false
  /\ map_get (str "FIRE") (dedupTopLevel noCaseTable [fireFirst; fireLater])
     <> Some fireLater.
Proof.
  repeat split; try reflexivity. vm_compute. discriminate.
Qed.

(** The winner of wood-frame among the two entries of the code 1. *)
Lemma dedup_winner_witness :
  map_get (str "wood-frame") (dedupTopLevel noCaseTable woodFrameEntries)
  = Some (mkTopLevelEntry (str "1") (Some (str "Wood Frame"))).
Proof.
  exact (proj1 (proj2 (proj2
           (dedup_winner noCaseTable woodFrameEntries markedFirstCodes
              (str "wood-frame"))))).
Defined.

(** The code-list loop on a first entry marked in its display only: the
    marked entry stays the winner and no concept is made. *)
Example marked_first_code_list :
  map_get (str "wood-frame") (dedupCodeList noCaseTable markedFirstCodes)
  = Some (mkCodeListCode (str "1") (str "DEPRECATED Wood Frame") None None)
  /\ concept (fst (buildFromCodeList noCaseTable noCaseTable
                     CONSTRUCTION_TYPE
                     (mkCodeListFile (str "ConstructionType") markedFirstCodes)
                     None None [])) = [].
Proof. split; reflexivity. Qed.

(** C7. A code that a first run wrote, and that the sources deprecate
    before the next run, stays in the written code system, while the
    mapping of that run ties it to the deprecated entry. *)
Lemma deprecated_later_stays :
  let r1 := main noCaseTable noCaseTable codeUnitCompare
              [(LOSS_CAUSE, [theftLive])] [] T1 noDisk in
  let r2 := main noCaseTable noCaseTable codeUnitCompare
              [(LOSS_CAUSE, [theftDeprecated])] [] T2 (out_disk r1) in
  topLevelDeprecated theftDeprecated = true
  /\ exists cs c,
       out_disk r2 LOSS_CAUSE = Some cs
       /\ In c (concept cs)
       /\ code c = topLevelKey noCaseTable theftDeprecated
       /\ In (topLevelMapping LOSS_CAUSE (code c) theftDeprecated)
            (file_mappings (out_mapping r2)).
Proof.
  intros r1 r2. split; [reflexivity|].
  eexists. eexists. split; [vm_compute; reflexivity|].
  split; [left; reflexivity|]. split; [reflexivity|].
  vm_compute. left. reflexivity.
Qed.

(** The deprecated winner of that second run is in its mapping file. *)
Lemma deprecated_excluded_witness :
  let r1 := main noCaseTable noCaseTable codeUnitCompare
              [(LOSS_CAUSE, [theftLive])] [] T1 noDisk in
  In (topLevelMapping LOSS_CAUSE (str "THEFT") theftDeprecated)
    (file_mappings
       (out_mapping
          (main noCaseTable noCaseTable codeUnitCompare
             [(LOSS_CAUSE, [theftDeprecated])] [] T2 (out_disk r1)))).
Proof.
  intros r1.
  exact (proj1 (proj2
           (deprecated_excluded noCaseTable noCaseTable codeUnitCompare
              [(LOSS_CAUSE, [theftDeprecated])] [] T2 (out_disk r1)
              LOSS_CAUSE))
           [theftDeprecated] (str "THEFT") theftDeprecated
           eq_refl eq_refl eq_refl).
Defined.

(** A run that finds THEFT on disk and appends FIRE. *)
Lemma written_codes_unique_witness :
  exists cs,
    out_disk (main noCaseTable noCaseTable codeUnitCompare
                [(LOSS_CAUSE, lossCauseEntries)] [] T1 lossCauseDisk)
      LOSS_CAUSE = Some cs
    /\ map code (concept cs) = [str "THEFT"; str "FIRE"]
    /\ NoDup (map code (concept cs)).
Proof.
  eexists. split; [vm_compute; reflexivity|]. split; [reflexivity|].
  apply (written_codes_unique noCaseTable noCaseTable codeUnitCompare
           [(LOSS_CAUSE, lossCauseEntries)] [] T1 lossCauseDisk LOSS_CAUSE).
  - intros cs0 H. vm_compute in H. injection H as <-.
    constructor; [intros []|constructor].
  - vm_compute. reflexivity.
Defined.

(** The same run keeps the concept it found. *)
Lemma run_append_only_witness :
  exists cs1,
    out_disk (main noCaseTable noCaseTable codeUnitCompare
                [(LOSS_CAUSE, lossCauseEntries)] [] T1 lossCauseDisk)
      LOSS_CAUSE = Some cs1
    /\ appendOnly (concept lossCauseRecord) (concept cs1).
Proof.
  exact (run_append_only noCaseTable noCaseTable codeUnitCompare
           [(LOSS_CAUSE, lossCauseEntries)] [] T1 lossCauseDisk LOSS_CAUSE
           eq_refl).
Defined.

(* ------------------------------------------------------------------ *)
(** ** Further properties on the sample sources *)
(* ------------------------------------------------------------------ *)

(** A display without marker nor white space at its ends. *)
Lemma cleanDisplay_unmarked_witness :
  cleanDisplay (str "Wood Frame") = str "Wood Frame".
Proof.
  exact (@cleanDisplay_unmarked (str "Wood Frame")
           eq_refl eq_refl eq_refl eq_refl).
Defined.

(** The header of the code system found on disk, after a run that appends
    to it. *)
Lemma run_keeps_header_witness :
  exists cs1,
    out_disk (main noCaseTable noCaseTable codeUnitCompare
                [(LOSS_CAUSE, lossCauseEntries)] [] T1 lossCauseDisk)
      LOSS_CAUSE = Some cs1
    /\ sameHeader lossCauseRecord cs1.
Proof.
  exact (@run_keeps_header noCaseTable noCaseTable codeUnitCompare
           [(LOSS_CAUSE, lossCauseEntries)] [] T1 lossCauseDisk LOSS_CAUSE
           lossCauseRecord eq_refl).
Defined.

(** A run over the line-of-business source leaves the loss-cause file. *)
Lemma run_leaves_unlisted_witness :
  out_disk (main noCaseTable noCaseTable codeUnitCompare
              [(LINE_OF_BUSINESS, autoEntries)] [] T1 lossCauseDisk)
    LOSS_CAUSE = lossCauseDisk LOSS_CAUSE.
Proof.
  apply (@run_leaves_unlisted noCaseTable noCaseTable codeUnitCompare
           [(LINE_OF_BUSINESS, autoEntries)] [] T1 lossCauseDisk LOSS_CAUSE).
  - intros [H|[]]. vm_compute in H. discriminate H.
  - intros [].
Defined.

(** A file without concepts that the run finds and does not write. *)
Lemma run_writes_no_empty_witness :
  emptyRecordDisk LOSS_CAUSE = Some emptyRecord.
Proof.
  apply (@run_writes_no_empty noCaseTable noCaseTable codeUnitCompare
           [(LOSS_CAUSE, [fireLater])] [] T1 emptyRecordDisk LOSS_CAUSE
           emptyRecord).
  - vm_compute. reflexivity.
  - reflexivity.
Defined.

(** Two directories that agree on the loss-cause file, at two clock
    readings. *)
Lemma run_local_witness :
  out_disk (main noCaseTable noCaseTable codeUnitCompare
              [(LOSS_CAUSE, lossCauseEntries)] [] T1 lossCauseDisk)
    LOSS_CAUSE
  = out_disk (main noCaseTable noCaseTable codeUnitCompare
                [(LOSS_CAUSE, lossCauseEntries)] [] T2 twoFileDisk)
      LOSS_CAUSE.
Proof.
  exact (@run_local noCaseTable noCaseTable codeUnitCompare
           [(LOSS_CAUSE, lossCauseEntries)] [] T1 T2 lossCauseDisk
           twoFileDisk LOSS_CAUSE eq_refl).
Defined.

(** Enriching the loss-cause code system with a code-list that has no
    French display. *)
Lemma enrich_without_french_witness :
  concept (enrichWithCodeList noCaseTable lossCauseRecord plainCodeList)
  = concept lossCauseRecord.
Proof.
  apply (@enrich_without_french noCaseTable lossCauseRecord plainCodeList).
  intros x [<-|[]]. reflexivity.
Defined.

(** An id is its own kebab-case form. *)
Lemma toKebabCase_kebab_witness :
  toKebabCase noCaseTable LINE_OF_BUSINESS = LINE_OF_BUSINESS.
Proof.
  exact (@toKebabCase_kebab noCaseTable LINE_OF_BUSINESS eq_refl).
Defined.

(** The one mapping entry of the wood-frame scenario and its source
    entry. *)
Lemma mapping_sound_witness :
  let m := mkMappingEntry (str "wood-frame") (str "1")
             (str "construction-type.json") CONSTRUCTION_TYPE in
  (exists entries e,
      map_get (codeSystemId m) [(CONSTRUCTION_TYPE, woodFrameEntries)]
        = Some entries
      /\ In e entries
      /\ sourceCode m = tl_code e
      /\ bindCode m = deriveBINDCode noCaseTable (tl_code e) (tl_display e)
      /\ sourceFile m = codeSystemId m ++ str ".json")
  \/ (exists cl x,
         map_get (codeSystemId m) (@nil (jsstring * CodeListFile)) = Some cl
         /\ In x (codes cl)
         /\ sourceCode m = cl_code x
         /\ bindCode m
            = deriveBINDCode noCaseTable (cl_code x) (Some (cl_display x))
         /\ sourceFile m =
            str "code-lists/" ++ toKebabCase noCaseTable (code_list_name cl)
              ++ str ".json").
Proof.
  intros m.
  apply (@mapping_sound noCaseTable noCaseTable codeUnitCompare
           [(CONSTRUCTION_TYPE, woodFrameEntries)] [] T1 noDisk m).
  vm_compute. left. reflexivity.
Defined.

(** The concept a run appends to the loss-cause code system and its
    mapping entry. *)
Lemma appended_are_mapped_witness :
  let r := main noCaseTable noCaseTable codeUnitCompare
             [(LOSS_CAUSE, lossCauseEntries)] [] T1 lossCauseDisk in
  exists cs appended,
    out_disk r LOSS_CAUSE = Some cs
    /\ concept cs = existingConcepts (lossCauseDisk LOSS_CAUSE) ++ appended
    /\ Forall (fun c =>
                 exists m,
                   In m (file_mappings (out_mapping r))
                   /\ bindCode m = code c /\ codeSystemId m = LOSS_CAUSE)
         appended.
Proof.
  intros r.
  assert (H : exists cs, out_disk r LOSS_CAUSE = Some cs)
    by (eexists; vm_compute; reflexivity).
  destruct H as [cs H].
  destruct (@appended_are_mapped noCaseTable noCaseTable codeUnitCompare
              [(LOSS_CAUSE, lossCauseEntries)] [] T1 lossCauseDisk
              LOSS_CAUSE cs H) as (appended & Hc & Hm).
  exists cs, appended. auto.
Defined.

(** A top-level source whose only entry has no display. *)
Lemma displayless_entries_add_nothing_witness :
  buildFromTopLevel noCaseTable noCaseTable LOSS_CAUSE [fireLater]
    (Some lossCauseRecord) []
  = (mergeOrCreate noCaseTable LOSS_CAUSE (Some lossCauseRecord) [], []).
Proof.
  apply (@displayless_entries_add_nothing noCaseTable noCaseTable
           LOSS_CAUSE [fireLater] (Some lossCauseRecord) []).
  repeat constructor.
Defined.
